(** * Workspace: resolution and caching core of cubes/workspace.py

    A shallow embedding of [cubes.workspace.Workspace]: the store registry,
    model import, the cube lookup cache, cube listing and the browser
    factory.  Python objects that carry identity ([Cube], [Store]) hold an
    object id taken from a counter of the workspace; exceptions are values
    of [error], and every operation returns the workspace it leaves behind
    (an exception does not roll anything back) together with the trace of
    the calls it made to its collaborators. *)

From stdpp Require Import gmap strings list fin_maps.

Open Scope string_scope.
Open Scope list_scope.

(** ** Python values *)

(** Hashable scalars, as they are passed for [ref] and [identity]. *)
Inductive pyval :=
  | PNone
  | PInt (z : Z)
  | PStr (s : string).

#[global] Instance pyval_eq_dec : EqDecision pyval.
Proof. solve_decision. Defined.

Definition pyval_enc (v : pyval) : unit + (Z + string) :=
  match v with
  | PNone => inl tt
  | PInt z => inr (inl z)
  | PStr s => inr (inr s)
  end.

Definition pyval_dec (x : unit + (Z + string)) : pyval :=
  match x with
  | inl _ => PNone
  | inr (inl z) => PInt z
  | inr (inr s) => PStr s
  end.

#[global] Instance pyval_countable : Countable pyval.
Proof.
  refine (inj_countable' pyval_enc pyval_dec _).
  intros []; reflexivity.
Defined.

(** Python truthiness of [str]: the empty string is false. *)
Definition str_truthy (s : string) : bool :=
  match s with "" => false | _ => true end.

(** Truthiness of [Optional[str]]. *)
Definition opt_truthy (o : option string) : bool :=
  match o with Some s => str_truthy s | None => false end.

(** [a or b] on [Optional[str]]. *)
Definition opt_or (a b : option string) : option string :=
  if opt_truthy a then a else b.

(** [a or d] where [d] is a string. *)
Definition str_or (a : option string) (d : string) : string :=
  match a with
  | Some s => if str_truthy s then s else d
  | None => d
  end.

(** ** Errors *)

Inductive config_reason :=
  | StoreAlreadyRegistered (name : string)
  | StoreHasNoType (name : string)
  | UnknownStore (name : string)
  | UnknownExtension (kind name : string)
  | UnknownModel
  | InvalidSettings
  | NoStoreForCube.

Inductive error :=
  | ConfigurationError (why : config_reason)
  | ArgumentError
  | NotAuthorized
  | NoSuchCubeError (ref : string)
  | NoSuchNamespace (path : string)
  | TypeError
  | KeyError
  | AssertionError.

(** ** Metadata, stores, providers, cubes *)

(** Declaration of one cube inside model metadata. *)
Record CubeDecl := {
  cd_name : string;
  cd_label : option string;
  cd_category : option string;
  cd_info : option string;
  cd_browser : option string;
  cd_browser_options : gmap string string;
  cd_locale : option string
}.

(** A model metadata dictionary: the keys [import_model] reads, and the
    cube declarations a provider serves. *)
Record Metadata := {
  md_provider : option string;
  md_store : option string;
  md_cubes : list CubeDecl
}.

Definition empty_metadata : Metadata :=
  {| md_provider := None; md_store := None; md_cubes := [] |}.

(** Values of a store configuration dictionary. *)
Inductive cval :=
  | CStr (s : string)
  | CModel (m : Metadata).

(** An empty dictionary is false. *)
Definition md_truthy (m : Metadata) : bool :=
  match md_provider m, md_store m, md_cubes m with
  | None, None, [] => false
  | _, _, _ => true
  end.

Definition cval_truthy (v : cval) : bool :=
  match v with
  | CStr s => str_truthy s
  | CModel m => md_truthy m
  end.

(** A live store instance. *)
Record Store := {
  store_oid : nat;
  extension_name : option string;
  default_browser_name : option string;
  store_options : gmap string cval
}.

(** The [store] attribute of a provider or of a cube: dynamically typed in
    the source, where it can hold a name, [None] or a store object. *)
Inductive store_field :=
  | SfAbsent
  | SfName (name : string)
  | SfLive (s : Store).

Definition store_field_is_name (f : store_field) : bool :=
  match f with
  | SfLive _ => false
  | _ => true
  end.

(** Reference to a namespace object: its path from the root ([[]] is the
    root namespace itself). *)
Definition ns_ref := list string.

(** Modelled from the spec: ModelProvider (cubes/metadata/providers.py is
    not part of the sources at hand).  A provider is bound to a metadata
    mapping and optionally to a store, says whether it requires a store, and
    produces cubes by basename. *)
Record Provider := {
  prov_type : string;
  prov_metadata : Metadata;
  prov_store : store_field;
  prov_requires_store : bool
}.

Record Cube := {
  cube_oid : nat;
  cube_name : string;
  cube_basename : string;
  cube_namespace : option ns_ref;
  cube_store : store_field;
  cube_browser : option string;
  cube_browser_options : gmap string string;
  cube_locale : option string;
  cube_label : option string
}.

(** Descriptor of a cube as [list_cubes] returns it. *)
Record CubeDescriptor := {
  desc_name : string;
  desc_label : option string;
  desc_category : option string;
  desc_info : option string
}.

#[global] Instance CubeDescriptor_eq_dec : EqDecision CubeDescriptor.
Proof. solve_decision. Defined.

(** ** Namespace tree *)

(** A translation source: translated labels by cube name. *)
Definition Translation := gmap string string.

(** Modelled from the spec: Namespace (cubes/namespace.py is not part of the
    sources at hand).  A namespace holds an ordered list of providers, a
    mapping from locale to translation source, and its named children in
    creation order. *)
#[local] Set Warnings "-register-all".
Inductive Namespace := mkNamespace {
  ns_providers : list Provider;
  ns_translations : gmap string Translation;
  ns_children : list (string * Namespace)
}.

Definition empty_namespace : Namespace :=
  mkNamespace [] ∅ [].

Fixpoint child_lookup (seg : string) (cs : list (string * Namespace))
  : option Namespace :=
  match cs with
  | [] => None
  | (k, c) :: cs' => if String.eqb k seg then Some c else child_lookup seg cs'
  end.

(** Replaces the child named [seg], or appends it when there is none. *)
Fixpoint child_set (seg : string) (n : Namespace)
  (cs : list (string * Namespace)) : list (string * Namespace) :=
  match cs with
  | [] => [(seg, n)]
  | (k, c) :: cs' =>
      if String.eqb k seg then (k, n) :: cs' else (k, c) :: child_set seg n cs'
  end.

(** Modelled from the spec: descends the tree by path segments. *)
Fixpoint ns_get (path : ns_ref) (t : Namespace) : option Namespace :=
  match path with
  | [] => Some t
  | seg :: rest =>
      match child_lookup seg (ns_children t) with
      | Some c => ns_get rest c
      | None => None
      end
  end.

(** Modelled from the spec: applies [f] to the namespace at [path],
    creating the missing segments on the way down. *)
Fixpoint ns_alter (f : Namespace -> Namespace) (path : ns_ref)
  (t : Namespace) : Namespace :=
  match path with
  | [] => f t
  | seg :: rest =>
      let c := default empty_namespace (child_lookup seg (ns_children t)) in
      mkNamespace (ns_providers t) (ns_translations t)
                  (child_set seg (ns_alter f rest c) (ns_children t))
  end.

(** Modelled from the spec: a dotted reference splits at every full
    stop. *)
Fixpoint split_dots (acc : string) (s : string) : list string :=
  match s with
  | EmptyString => [acc]
  | String a s' =>
      if Ascii.eqb a (Ascii.ascii_of_nat 46) then acc :: split_dots "" s'
      else split_dots (String.append acc (String a "")) s'
  end.

(** Path segments of a namespace name; an absent or empty name denotes the
    namespace itself. *)
Definition path_of (name : option string) : ns_ref :=
  match name with
  | None => []
  | Some s => if str_truthy s then split_dots "" s else []
  end.

(** Modelled from the spec: [namespace(path, create=True)] gives the tree
    with the path created, and the reference to the target namespace. *)
Definition namespace_create (name : option string) (t : Namespace)
  : Namespace * ns_ref :=
  (ns_alter id (path_of name) t, path_of name).

(** Modelled from the spec: [namespace(path)] fails when a segment is
    missing. *)
Definition namespace_find (name : option string) (t : Namespace)
  : error + ns_ref :=
  match ns_get (path_of name) t with
  | Some _ => inr (path_of name)
  | None => inl (NoSuchNamespace (default "" name))
  end.

(** Modelled from the spec: [add_provider] appends to the provider
    list. *)
Definition add_provider (p : Provider) (n : Namespace) : Namespace :=
  mkNamespace (ns_providers n ++ [p]) (ns_translations n) (ns_children n).

Definition ns_add_translation (locale : string) (tr : Translation)
  (n : Namespace) : Namespace :=
  mkNamespace (ns_providers n) (<[locale := tr]> (ns_translations n))
              (ns_children n).

(** *** Providers *)

Definition provider_decl (p : Provider) (basename : string)
  : option CubeDecl :=
  List.find (fun d => String.eqb (cd_name d) basename)
            (md_cubes (prov_metadata p)).

Definition has_cube (p : Provider) (basename : string) : bool :=
  match provider_decl p basename with Some _ => true | None => false end.

Definition descriptor (d : CubeDecl) : CubeDescriptor :=
  {| desc_name := cd_name d; desc_label := cd_label d;
     desc_category := cd_category d; desc_info := cd_info d |}.

Definition provider_list_cubes (p : Provider) : list CubeDescriptor :=
  map descriptor (md_cubes (prov_metadata p)).

(** Modelled from the spec: [list_cubes(recursive=True)], the cube
    descriptors of a namespace's providers in registration order, followed
    by those of its descendants; nothing is deduplicated. *)
Fixpoint ns_list_cubes (t : Namespace) : list CubeDescriptor :=
  match t with
  | mkNamespace ps _ cs =>
      concat (map provider_list_cubes ps)
      ++ (fix descend (l : list (string * Namespace)) : list CubeDescriptor :=
            match l with
            | [] => []
            | (_, c) :: l' => ns_list_cubes c ++ descend l'
            end) cs
  end.

(** First provider of the list that claims [basename]. *)
Definition claiming (ps : list Provider) (basename : string)
  : option Provider :=
  List.find (fun p => has_cube p basename) ps.

(** Searches the namespace whose reversed path is [rpath], then its
    ancestors up to the root. *)
Fixpoint find_upwards (t : Namespace) (basename : string) (rpath : ns_ref)
  : option (ns_ref * Provider) :=
  let here :=
    match ns_get (rev rpath) t with
    | Some n =>
        match claiming (ns_providers n) basename with
        | Some p => Some (rev rpath, p)
        | None => None
        end
    | None => None
    end in
  match here with
  | Some r => Some r
  | None =>
      match rpath with
      | [] => None
      | _ :: up => find_upwards t basename up
      end
  end.

(** Modelled from the spec: [find_cube(ref)] gives the namespace, the
    provider and the basename of the first provider that claims the cube,
    in the namespace the reference names or, failing that, in its nearest
    ancestor. *)
Definition find_cube (ref : string) (t : Namespace)
  : error + (ns_ref * Provider * string) :=
  match rev (split_dots "" ref) with
  | [] => inl (NoSuchCubeError ref)
  | basename :: rpath =>
      match find_upwards t basename rpath with
      | Some (ns, p) => inr (ns, p, basename)
      | None => inl (NoSuchCubeError ref)
      end
  end.

(** Modelled from the spec: the translation sources for [locale], from the
    namespace at [rpath] outwards to the root, nearest first. *)
Fixpoint lookup_upwards (t : Namespace) (locale : string) (rpath : ns_ref)
  : list Translation :=
  let here :=
    match ns_get (rev rpath) t with
    | Some n =>
        match ns_translations n !! locale with
        | Some tr => [tr]
        | None => []
        end
    | None => []
    end in
  match rpath with
  | [] => here
  | _ :: up => here ++ lookup_upwards t locale up
  end.

Definition translation_lookup (t : Namespace) (ns : ns_ref)
  (locale : option string) : list Translation :=
  match locale with
  | Some l => lookup_upwards t l (rev ns)
  | None => []
  end.

(** ** Extension registries and other collaborators *)

(** A store class, as [Store.concrete_extension] returns it. *)
Record StoreClass := {
  sc_extension_name : option string;
  sc_related_model_provider : option string;
  sc_default_browser_name : option string;
  sc_accepts : gmap string cval -> bool
}.

Record ProviderClass := {
  pc_requires_store : bool
}.

Record BrowserClass := {
  bc_distill_settings : gmap string cval -> error + gmap string cval
}.

Definition NamingDict := gmap string string.

Record Calendar := {
  timezone : option string;
  first_weekday : Z
}.

(** What the workspace imports from the rest of the package: the extension
    registries, the metadata reader, the naming distiller and the binding
    of a provider to a store. *)
Record Extensions := {
  store_extension : string -> option StoreClass;
  provider_extension : string -> option ProviderClass;
  browser_extension : string -> option BrowserClass;
  read_model_metadata : string -> error + Metadata;
  distill_naming : NamingDict -> NamingDict;
  provider_bind : Provider -> Store -> Provider
}.

(** [authorize(identity, references)] returns the authorized references. *)
Definition Authorizer := pyval -> list string -> list string.

(** ** The workspace *)

(** [_CubeKey]: reference, identity, locale. *)
Abbreviation CubeKey := (string * pyval * option string)%type.

Record Workspace := {
  store_infos : gmap string (string * gmap string cval);
  stores : gmap string Store;
  namespace : Namespace;
  _cubes : gmap CubeKey Cube;
  authorizer : option Authorizer;
  browser_options : gmap string string;
  namings : gmap string NamingDict;
  calendar : Calendar;
  models_dir : string;
  next_oid : nat
}.

Definition set_store_infos (v : gmap string (string * gmap string cval))
  (w : Workspace) : Workspace :=
  {| store_infos := v; stores := stores w; namespace := namespace w;
     _cubes := _cubes w; authorizer := authorizer w;
     browser_options := browser_options w; namings := namings w;
     calendar := calendar w; models_dir := models_dir w;
     next_oid := next_oid w |}.

Definition set_stores (v : gmap string Store) (w : Workspace) : Workspace :=
  {| store_infos := store_infos w; stores := v; namespace := namespace w;
     _cubes := _cubes w; authorizer := authorizer w;
     browser_options := browser_options w; namings := namings w;
     calendar := calendar w; models_dir := models_dir w;
     next_oid := next_oid w |}.

Definition set_namespace (v : Namespace) (w : Workspace) : Workspace :=
  {| store_infos := store_infos w; stores := stores w; namespace := v;
     _cubes := _cubes w; authorizer := authorizer w;
     browser_options := browser_options w; namings := namings w;
     calendar := calendar w; models_dir := models_dir w;
     next_oid := next_oid w |}.

Definition set_cubes (v : gmap CubeKey Cube) (w : Workspace) : Workspace :=
  {| store_infos := store_infos w; stores := stores w;
     namespace := namespace w; _cubes := v; authorizer := authorizer w;
     browser_options := browser_options w; namings := namings w;
     calendar := calendar w; models_dir := models_dir w;
     next_oid := next_oid w |}.

Definition set_next_oid (v : nat) (w : Workspace) : Workspace :=
  {| store_infos := store_infos w; stores := stores w;
     namespace := namespace w; _cubes := _cubes w;
     authorizer := authorizer w; browser_options := browser_options w;
     namings := namings w; calendar := calendar w;
     models_dir := models_dir w; next_oid := v |}.

(** The workspace right after construction from an empty configuration. *)
Definition new_workspace (auth : option Authorizer) : Workspace :=
  {| store_infos := ∅; stores := ∅; namespace := empty_namespace;
     _cubes := ∅; authorizer := auth; browser_options := ∅; namings := ∅;
     calendar := {| timezone := None; first_weekday := 0 |};
     models_dir := "./."; next_oid := 0 |}.

(** ** Calls to collaborators, and the monad of workspace methods *)

Inductive event :=
  | EvAuthorize (identity : pyval) (refs : list string)
  | EvCacheLookup (key : CubeKey)
  | EvCacheStore (key : CubeKey) (oid : nat)
  | EvFindCube (ref : string)
  | EvProviderCube (basename : string) (locale : option string) (ns : ns_ref)
  | EvTranslationLookup (ns : ns_ref) (locale : option string)
  | EvLocalize (name : string)
  | EvListCubes
  | EvStoreExtension (type_ : string)
  | EvCreateStore (name type_ : string)
  | EvReadModel (path : string)
  | EvProviderExtension (name : string)
  | EvBind (store_oid : nat)
  | EvBrowserExtension (name : string)
  | EvCreateBrowser (name : string) (cube_oid : nat) (locale : option string).

(** A method takes the workspace and yields its result or the exception it
    raised, the workspace as it left it, and the calls it made. *)
Definition M (A : Type) : Type :=
  Workspace -> (error + A) * Workspace * list event.

Definition ret {A} (a : A) : M A := fun w => (inr a, w, []).

Definition raise {A} (e : error) : M A := fun w => (inl e, w, []).

Definition bind {A B} (m : M A) (k : A -> M B) : M B :=
  fun w =>
    match m w with
    | (inl e, w1, t1) => (inl e, w1, t1)
    | (inr a, w1, t1) =>
        match k a w1 with
        | (r, w2, t2) => (r, w2, t1 ++ t2)
        end
    end.

Definition get : M Workspace := fun w => (inr w, w, []).

Definition modify (f : Workspace -> Workspace) : M unit :=
  fun w => (inr tt, f w, []).

Definition emit (e : event) : M unit := fun w => (inr tt, w, [e]).

Definition lift {A} (r : error + A) : M A :=
  match r with
  | inl e => raise e
  | inr a => ret a
  end.

(** A fresh object id. *)
Definition alloc : M nat :=
  fun w => (inr (next_oid w), set_next_oid (S (next_oid w)) w, []).

Declare Scope ws_scope.
Delimit Scope ws_scope with ws.
Notation "x <- m ;; k" := (bind m (fun x => k))
  (at level 100, m at next level, right associativity) : ws_scope.
Notation "m ;;; k" := (bind m (fun _ => k))
  (at level 100, right associativity) : ws_scope.
Open Scope ws_scope.

Definition result_of {A} (o : (error + A) * Workspace * list event)
  : error + A := o.1.1.
Definition state_of {A} (o : (error + A) * Workspace * list event)
  : Workspace := o.1.2.
Definition trace_of {A} (o : (error + A) * Workspace * list event)
  : list event := o.2.

(** ** Methods of [Workspace] *)

Section Methods.

Variable X : Extensions.

(** [flush_lookup_cache]: [self._cubes.clear()]. *)
Definition flush_lookup_cache : M unit :=
  modify (set_cubes ∅).

(** Modelled from the spec: [Store.concrete_extension(type_)] (the
    extension registry, cubes/ext.py, is not part of the sources at hand)
    maps a type identifier to a class, and a miss is a configuration
    error. *)
Definition store_concrete_extension (type_ : string) : M StoreClass :=
  emit (EvStoreExtension type_) ;;;
  match store_extension X type_ with
  | Some cls => ret cls
  | None => raise (ConfigurationError (UnknownExtension "store" type_))
  end.

(** [cls.create_with_dict(options)]: a new live store, unless the class
    refuses the configuration. *)
Definition create_with_dict (name type_ : string) (cls : StoreClass)
  (options : gmap string cval) : M Store :=
  emit (EvCreateStore name type_) ;;;
  if sc_accepts cls options then
    oid <- alloc ;;
    ret {| store_oid := oid;
           extension_name := sc_extension_name cls;
           default_browser_name := sc_default_browser_name cls;
           store_options := options |}
  else raise (ConfigurationError InvalidSettings).

(** [get_store(name=None)]. *)
Definition get_store (name : option string) : M Store :=
  let name := str_or name "default" in
  w <- get ;;
  match stores w !! name with
  | Some store => ret store
  | None =>
      match store_infos w !! name with
      | None => raise (ConfigurationError (UnknownStore name))
      | Some (type_, options) =>
          ext <- store_concrete_extension type_ ;;
          store <- create_with_dict name type_ ext options ;;
          modify (fun w => set_stores (<[name := store]> (stores w)) w) ;;;
          ret store
      end
  end.

(** Modelled from the spec: [provider.cube(basename, locale, namespace)]
    (cubes/metadata/providers.py is not part of the sources at hand).  The
    provider owns no cache: it produces a new cube object from its metadata
    on every call. *)
Definition provider_cube (p : Provider) (basename : string)
  (locale : option string) (ns : ns_ref) : M Cube :=
  emit (EvProviderCube basename locale ns) ;;;
  match provider_decl p basename with
  | None => raise (NoSuchCubeError basename)
  | Some d =>
      oid <- alloc ;;
      ret {| cube_oid := oid;
             cube_name := cd_name d;
             cube_basename := cd_name d;
             cube_namespace := None;
             cube_store := SfAbsent;
             cube_browser := cd_browser d;
             cube_browser_options := cd_browser_options d;
             cube_locale := cd_locale d;
             cube_label := cd_label d |}
  end.

(** The four attribute assignments of [cube()]; they mutate the object the
    provider returned, so the object id stays. *)
Definition stamp (ns : ns_ref) (p : Provider) (basename ref : string)
  (c : Cube) : Cube :=
  {| cube_oid := cube_oid c;
     cube_name := ref;
     cube_basename := basename;
     cube_namespace := Some ns;
     cube_store := prov_store p;
     cube_browser := cube_browser c;
     cube_browser_options := cube_browser_options c;
     cube_locale := cube_locale c;
     cube_label := cube_label c |}.

(** Modelled from the spec: [LocalizationContext(source)
    .object_localization("cubes", name)] followed by [cube.localized(trans)]
    (cubes/metadata is not part of the sources at hand): a localized copy
    of the cube, a new object whose label is the translated one when the
    source has it. *)
Definition localized (tr : Translation) (c : Cube) : M Cube :=
  emit (EvLocalize (cube_name c)) ;;;
  oid <- alloc ;;
  ret {| cube_oid := oid;
         cube_name := cube_name c;
         cube_basename := cube_basename c;
         cube_namespace := cube_namespace c;
         cube_store := cube_store c;
         cube_browser := cube_browser c;
         cube_browser_options := cube_browser_options c;
         cube_locale := cube_locale c;
         cube_label := match tr !! cube_name c with
                       | Some l => Some l
                       | None => cube_label c
                       end |}.

(** The authorization step of [cube()]. *)
Definition authorize_ref (ref : string) (identity : pyval) : M unit :=
  w <- get ;;
  match authorizer w with
  | Some auth =>
      emit (EvAuthorize identity [ref]) ;;;
      match auth identity [ref] with
      | [] => raise NotAuthorized
      | _ :: _ => ret tt
      end
  | None => ret tt
  end.

(** What [cube()] does on a cache miss. *)
Definition resolve_cube (ref : string) (locale : option string) : M Cube :=
  w <- get ;;
  emit (EvFindCube ref) ;;;
  found <- lift (find_cube ref (namespace w)) ;;
  let '(ns, provider, basename) := found in
  cube <- provider_cube provider basename locale ns ;;
  let cube := stamp ns provider basename ref cube in
  emit (EvTranslationLookup ns locale) ;;;
  match translation_lookup (namespace w) ns locale with
  | [] => ret cube
  | tr :: _ => localized tr cube
  end.

(** What [cube()] does once the reference is admitted: the cached cube
    under the key, or else the resolution and the caching of its result. *)
Definition lookup_or_resolve (ref : string) (identity : pyval)
  (locale : option string) : M Cube :=
  let cube_key : CubeKey := (ref, identity, locale) in
  w <- get ;;
  emit (EvCacheLookup cube_key) ;;;
  match _cubes w !! cube_key with
  | Some cached => ret cached
  | None =>
      cube <- resolve_cube ref locale ;;
      emit (EvCacheStore cube_key (cube_oid cube)) ;;;
      modify (fun w => set_cubes (<[cube_key := cube]> (_cubes w)) w) ;;;
      ret cube
  end.

(** [cube(ref, identity=None, locale=None)]. *)
Definition cube (ref : pyval) (identity : pyval) (locale : option string)
  : M Cube :=
  match ref with
  | PStr ref =>
      authorize_ref ref identity ;;;
      lookup_or_resolve ref identity locale
  | _ => raise TypeError
  end.

(** [{cube["name"]: cube for cube in all_cubes}]: a later descriptor
    replaces an earlier one of the same name. *)
Definition by_name (all_cubes : list CubeDescriptor)
  : gmap string CubeDescriptor :=
  foldl (fun m d => <[desc_name d := d]> m) ∅ all_cubes.

(** [[by_name[name] for name in authorized]]; a missing name raises
    [KeyError]. *)
Fixpoint pick (m : gmap string CubeDescriptor) (authorized : list string)
  : option (list CubeDescriptor) :=
  match authorized with
  | [] => Some []
  | name :: rest =>
      match m !! name, pick m rest with
      | Some d, Some ds => Some (d :: ds)
      | _, _ => None
      end
  end.

(** [list_cubes(identity=None)]. *)
Definition list_cubes (identity : pyval) : M (list CubeDescriptor) :=
  w <- get ;;
  emit EvListCubes ;;;
  let all_cubes := ns_list_cubes (namespace w) in
  match authorizer w with
  | Some auth =>
      let names := map desc_name all_cubes in
      emit (EvAuthorize identity names) ;;;
      match pick (by_name all_cubes) (auth identity names) with
      | Some cubes => ret cubes
      | None => raise KeyError
      end
  | None => ret all_cubes
  end.

(** [cube_names(identity=None)]: the source calls [self.list_cubes()]
    without an argument. *)
Definition cube_names (identity : pyval) : M (list string) :=
  cubes <- list_cubes PNone ;;
  ret (map desc_name cubes).

End Methods.

(** ** Registration: model import and stores *)

(** The [model] argument of [import_model]. *)
Inductive model_arg :=
  | MaNone
  | MaPath (path : string)
  | MaDict (m : Metadata)
  | MaOther.

(** The [provider] argument: a provider name, a provider object, nothing,
    or a value that is none of these ([truthy] is its truth value). *)
Inductive provider_arg :=
  | PaNone
  | PaName (name : string)
  | PaObj (p : Provider)
  | PaOther (truthy : bool).

(** The [namespace] argument: a name, a namespace object, nothing, or a
    value that is none of these ([truthy] is its truth value). *)
Inductive namespace_arg :=
  | NaNone
  | NaName (name : string)
  | NaObj (ns : ns_ref)
  | NaOther (truthy : bool).

(** [os.path.isabs] and [os.path.join] on POSIX paths. *)
Definition isabs (path : string) : bool :=
  match path with
  | String a _ => Ascii.eqb a (Ascii.ascii_of_nat 47)
  | EmptyString => false
  end.

Fixpoint ends_with_slash (s : string) : bool :=
  match s with
  | EmptyString => false
  | String a EmptyString => Ascii.eqb a (Ascii.ascii_of_nat 47)
  | String _ s' => ends_with_slash s'
  end.

Definition path_join (a b : string) : string :=
  if isabs b then b
  else if str_truthy a && negb (ends_with_slash a)
       then String.append a (String.append "/" b)
       else String.append a b.

Section Registration.

Variable X : Extensions.

(** Modelled from the spec: [ModelProvider.concrete_extension(name)(model)]
    (cubes/ext.py and cubes/metadata/providers.py are not part of the
    sources at hand): a provider of the named type over the metadata, not
    bound to a store yet; an unknown type is a configuration error. *)
Definition make_provider (name : string) (model : Metadata) : M Provider :=
  emit (EvProviderExtension name) ;;;
  match provider_extension X name with
  | Some cls =>
      ret {| prov_type := name; prov_metadata := model;
             prov_store := SfAbsent;
             prov_requires_store := pc_requires_store cls |}
  | None => raise (ConfigurationError (UnknownExtension "provider" name))
  end.

(** Step 1 of [import_model]: the metadata dictionary. *)
Definition model_metadata (model : model_arg) : M Metadata :=
  match model with
  | MaPath path =>
      w <- get ;;
      let path :=
        if str_truthy (models_dir w) && negb (isabs path)
        then path_join (models_dir w) path else path in
      emit (EvReadModel path) ;;;
      lift (read_model_metadata X path)
  | MaDict m => ret m
  | MaNone => ret empty_metadata
  | MaOther => raise (ConfigurationError UnknownModel)
  end.

(** Step 2: the provider object, when the argument is a name or a provider;
    [None] stands for [provider_obj] being some other value. *)
Definition model_provider (provider : provider_arg) (model : Metadata)
  : M (option Provider) :=
  match provider with
  | PaName name => p <- make_provider name model ;; ret (Some p)
  | PaObj p => ret (Some p)
  | PaOther true => ret None
  | PaOther false | PaNone =>
      p <- make_provider (default "static" (md_provider model)) model ;;
      ret (Some p)
  end.

(** Step 4: the namespace that receives the provider.  A [namespace] that
    is neither a name nor a namespace object has no [add_provider]. *)
Definition target_namespace (ns : namespace_arg) (store : option string)
  : M ns_ref :=
  let by_name (name : option string) : M ns_ref :=
    w <- get ;;
    let '(t, r) := namespace_create name (namespace w) in
    modify (set_namespace t) ;;;
    ret r in
  let by_store : M ns_ref :=
    if from_option (String.eqb "default") false store then ret []
    else by_name store in
  match ns with
  | NaObj r => ret r
  | NaName name =>
      if str_truthy name then
        if String.eqb name "default" then ret [] else by_name (Some name)
      else by_store
  | NaOther true => raise TypeError
  | NaOther false | NaNone => by_store
  end.

(** [ns.add_provider(provider_obj)] on the namespace object [r] refers to;
    an object that is not part of the tree leaves the tree as it is. *)
Definition register_provider (r : ns_ref) (p : Provider) : M unit :=
  modify (fun w =>
    match ns_get r (namespace w) with
    | Some _ => set_namespace (ns_alter (add_provider p) r (namespace w)) w
    | None => w
    end).

(** Step 3 of [import_model]: the provider is bound to the live store when
    a store is named or the provider requires one.  A value that is not a
    provider has neither [requires_store] nor [bind]. *)
Definition bind_store (provider_obj : option Provider)
  (store : option string) : M (option Provider) :=
  if opt_truthy store
     || from_option prov_requires_store false provider_obj
  then
    s <- get_store X store ;;
    match provider_obj with
    | Some p =>
        emit (EvBind (store_oid s)) ;;;
        ret (Some (provider_bind X p s))
    | None => raise TypeError
    end
  else ret provider_obj.

(** [import_model(model, provider, store, translations, namespace)].  A
    [provider] that is neither a name nor a provider object cannot be
    registered: the model raises where the source would first call one of
    the provider's methods on it. *)
Definition import_model (model : model_arg) (provider : provider_arg)
  (store : option string) (ns : namespace_arg) : M unit :=
  model <- model_metadata model ;;
  provider_obj <- model_provider provider model ;;
  let store := opt_or store (md_store model) in
  provider_obj <- bind_store provider_obj store ;;
  r <- target_namespace ns store ;;
  match provider_obj with
  | Some provider_obj => register_provider r provider_obj
  | None => raise TypeError
  end.

(** The value of a configuration key read as a provider argument. *)
Definition provider_of_cval (v : cval) : provider_arg :=
  match v with
  | CStr s => PaName s
  | CModel m => PaOther (md_truthy m)
  end.

Definition provider_arg_truthy (p : provider_arg) : bool :=
  match p with
  | PaNone => false
  | PaName s => str_truthy s
  | PaObj _ => true
  | PaOther b => b
  end.

Definition model_of_cval (v : cval) : model_arg :=
  match v with
  | CStr s => MaPath s
  | CModel m => MaDict m
  end.

(** [self.store_infos[name] = (type_, config)]; the dictionary stored is
    the one the method goes on popping keys from. *)
Definition record_store (name type_ : string) (config : gmap string cval)
  : M unit :=
  modify (fun w => set_store_infos (<[name := (type_, config)]> (store_infos w)) w).

(** The end of [register_store]: the model the store brings is imported,
    or else an empty model for the provider that goes with the store. *)
Definition import_store_model (name : string) (model : option cval)
  (provider : provider_arg) (nsname : namespace_arg) : M unit :=
  if from_option cval_truthy false model then
    import_model (from_option model_of_cval MaNone model) provider
                 (Some name) nsname
  else if provider_arg_truthy provider then
    import_model (MaDict empty_metadata) provider (Some name) nsname
  else ret tt.

(** [register_store(name, type_, include_model=True, **config)]. *)
Definition register_store (name type_ : string) (include_model : bool)
  (config : gmap string cval) : M unit :=
  w <- get ;;
  match store_infos w !! name with
  | Some _ => raise (ConfigurationError (StoreAlreadyRegistered name))
  | None =>
      record_store name type_ config ;;;
      let model :=
        if include_model then config !! "model" else None in
      let config :=
        if include_model then delete "model" config else config in
      record_store name type_ config ;;;
      store_factory <- store_concrete_extension X type_ ;;
      let provider :=
        match config !! "model_provider" with
        | Some v => provider_of_cval v
        | None =>
            match sc_related_model_provider store_factory with
            | Some p => PaName p
            | None => PaNone
            end
        end in
      let config := delete "model_provider" config in
      let nsname :=
        match config !! "namespace" with
        | Some (CStr s) => NaName s
        | Some (CModel m) => NaOther (md_truthy m)
        | None => NaNone
        end in
      let config := delete "namespace" config in
      record_store name type_ config ;;;
      import_store_model name model provider nsname
  end.

(** [_register_store_dict(name, info)]: the type is popped from the ["type"]
    key, or else from ["backend"]; the remaining keys become keyword
    arguments of [register_store]. *)
Definition _register_store_dict (name : string) (info : gmap string cval)
  : M unit :=
  popped <-
    match info !! "type" with
    | Some v => ret (v, delete "type" info)
    | None =>
        match info !! "backend" with
        | Some v => ret (v, delete "backend" info)
        | None => raise (ConfigurationError (StoreHasNoType name))
        end
    end ;;
  let '(type_, info) := popped in
  match type_, info !! "name", info !! "type_" with
  | CStr type_, None, None =>
      let include_model :=
        match info !! "include_model" with
        | Some v => cval_truthy v
        | None => true
        end in
      register_store name type_ include_model (delete "include_model" info)
  | _, _, _ => raise TypeError
  end.

(** [register_default_store(type_, **config)]. *)
Definition register_default_store (type_ : string)
  (config : gmap string cval) : M unit :=
  register_store "default" type_ true config.

End Registration.

(** ** Browser factory *)

Record Browser := {
  br_oid : nat;
  br_class : string;
  br_cube : Cube;
  br_store : Store;
  br_locale : option string;
  br_calendar : Calendar;
  br_naming : option NamingDict;
  br_settings : gmap string cval
}.

(** The [cube] argument of [browser]: a cube object or a reference. *)
Inductive cube_arg :=
  | ByRef (ref : string)
  | ByObj (c : Cube).

Section BrowserFactory.

Variable X : Extensions.

(** [_browser_options(cube)]: the workspace options overridden by the
    cube's own. *)
Definition _browser_options (w : Workspace) (c : Cube) : gmap string string :=
  cube_browser_options c ∪ browser_options w.

(** The part of [browser()] that follows the resolution of the cube. *)
Definition browser_for (c : Cube) (locale : option string) : M Browser :=
  if negb (store_field_is_name (cube_store c)) then raise AssertionError
  else
    let locale := opt_or locale (cube_locale c) in
    let store_name :=
      match cube_store c with
      | SfName s => if str_truthy s then s else "default"
      | _ => "default"
      end in
    store <- get_store X (Some store_name) ;;
    w <- get ;;
    match store_infos w !! store_name with
    | None => raise KeyError
    | Some (_, store_info) =>
        match extension_name store with
        | None => raise AssertionError
        | Some store_type =>
            let cube_options := _browser_options w c in
            let options : gmap string cval :=
              (CStr <$> cube_options) ∪ store_info in
            let browser_name :=
              str_or (opt_or (cube_browser c) (default_browser_name store))
                     store_type in
            if negb (str_truthy browser_name)
            then raise (ConfigurationError NoStoreForCube)
            else
              emit (EvBrowserExtension browser_name) ;;;
              match browser_extension X browser_name with
              | None =>
                  raise (ConfigurationError
                           (UnknownExtension "browser" browser_name))
              | Some cls =>
                  let options := delete "url" options in
                  let naming_name :=
                    default (CStr "default") (options !! "naming") in
                  let options := delete "naming" options in
                  match naming_name with
                  | CModel _ => raise TypeError
                  | CStr naming_name =>
                      let naming :=
                        distill_naming X <$> (namings w !! naming_name) in
                      settings <- lift (bc_distill_settings cls options) ;;
                      emit (EvCreateBrowser browser_name (cube_oid c) locale) ;;;
                      oid <- alloc ;;
                      ret {| br_oid := oid; br_class := browser_name;
                             br_cube := c; br_store := store;
                             br_locale := locale;
                             br_calendar := calendar w;
                             br_naming := naming;
                             br_settings := settings |}
                  end
              end
        end
    end.

(** [browser(cube, locale=None, identity=None)]. *)
Definition browser (c : cube_arg) (locale : option string)
  (identity : pyval) : M Browser :=
  c <- match c with
       | ByRef ref => cube (PStr ref) identity None
       | ByObj c => ret c
       end ;;
  browser_for c locale.

End BrowserFactory.

(** ** Translations, slicers, features and configuration sections *)



(** [_store_for_model(metadata)]; [info] is the dictionary under the
    ["info"] key of the metadata, when there is one. *)
Definition _store_for_model (metadata : Metadata)
  (info : option (gmap string string)) : string :=
  let store_name := md_store metadata in
  let store_name :=
    if negb (opt_truthy store_name) then
      match info with
      | Some i => i !! "store"
      | None => store_name
      end
    else store_name in
  str_or store_name "default".

Section Translations.

Variable X : Extensions.

(** [_get_namespace(ref)]. *)
Definition _get_namespace (ref : option string) : M ns_ref :=
  if negb (opt_truthy ref) || from_option (String.eqb "default") false ref
  then ret []
  else
    w <- get ;;
    lift (namespace_find ref (namespace w)).

(** [add_translation(locale, trans, ns="default")]. *)
Definition add_translation (locale : string) (trans : Translation)
  (ns : option string) : M unit :=
  r <- _get_namespace ns ;;
  modify (fun w =>
    set_namespace
      (ns_alter (ns_add_translation locale trans) r (namespace w)) w).

(** [add_slicer(name, url, **options)]; [options] holds the keyword
    arguments other than [name] and [url].  The call of [register_store]
    passes [url=url] and [**options], so ["include_model"] among the
    options is that parameter and ["type_"] is given twice. *)
Definition add_slicer (name url : string) (options : gmap string cval)
  : M unit :=
  match options !! "type_" with
  | Some _ => raise TypeError
  | None =>
      let include_model :=
        from_option cval_truthy true (options !! "include_model") in
      register_store X name "slicer" include_model
        (<["url" := CStr url]> (delete "include_model" options)) ;;;
      import_model X (MaDict empty_metadata) (PaName "slicer")
        (Some name) NaNone
  end.

(** [cube_features(cube, identity=None)]: the source calls
    [self.browser(cube, identity)], which puts the identity where
    [browser] takes the locale, and asks the browser for its features.
    Identities that are strings or [None] are covered. *)
Definition cube_features {Features : Type} (features : Browser -> Features)
  (c : cube_arg) (identity : option string) : M Features :=
  b <- browser X c identity PNone ;;
  ret (features b).

End Translations.

(** ** A small installation, for running the methods *)

Module Demo.

Definition sql_store : StoreClass :=
  {| sc_extension_name := Some "sql";
     sc_related_model_provider := None;
     sc_default_browser_name := None;
     sc_accepts := fun _ => true |}.

Definition ext : Extensions :=
  {| store_extension := fun n => if String.eqb n "sql" then Some sql_store else None;
     provider_extension := fun n =>
       if String.eqb n "static" then Some {| pc_requires_store := false |}
       else None;
     browser_extension := fun n =>
       if String.eqb n "sql"
       then Some {| bc_distill_settings := fun o => inr o |} else None;
     read_model_metadata := fun _ => inl (ConfigurationError UnknownModel);
     distill_naming := fun n => n;
     provider_bind := fun p s => p |}.

Definition sales_decl : CubeDecl :=
  {| cd_name := "sales"; cd_label := Some "Sales"; cd_category := None;
     cd_info := None; cd_browser := None; cd_browser_options := ∅;
     cd_locale := None |}.

Definition model : Metadata :=
  {| md_provider := None; md_store := None; md_cubes := [sales_decl] |}.

(** Approves every reference for ["alice"] and none for anybody else. *)
Definition only_alice : Authorizer :=
  fun identity refs =>
    match identity with
    | PStr "alice" => refs
    | _ => []
    end.

(** A workspace with the model imported under the registered default
    store. *)
Definition populated (auth : option Authorizer) : Workspace :=
  state_of
    (register_store ext "default" "sql" true
       {[ "model" := CModel model ]} (new_workspace auth)).

End Demo.

(** ** Vocabulary of the properties *)

(** Whether the authorizer of [w], if any, lets [ref] through for
    [identity]: the test [cube()] makes. *)
Definition admitted (w : Workspace) (ref : string) (identity : pyval)
  : bool :=
  match authorizer w with
  | Some auth =>
      match auth identity [ref] with [] => false | _ :: _ => true end
  | None => true
  end.

Definition auth_trace (w : Workspace) (ref : string) (identity : pyval)
  : list event :=
  match authorizer w with
  | Some _ => [EvAuthorize identity [ref]]
  | None => []
  end.

(** A cached cube is an object made before now, and carries the stamps of
    the resolution of its key's reference in the tree as it stands. *)
Definition cached_ok (w : Workspace) (key : CubeKey) (c : Cube) : Prop :=
  cube_oid c < next_oid w
  /\ exists ns p basename,
       find_cube key.1.1 (namespace w) = inr (ns, p, basename)
       /\ cube_name c = key.1.1
       /\ cube_basename c = basename
       /\ cube_namespace c = Some ns
       /\ cube_store c = prov_store p.

(** The cache holds nothing stale: what [flush_lookup_cache] is there to
    re-establish after the model changed. *)
Definition cache_consistent (w : Workspace) : Prop :=
  forall key c, _cubes w !! key = Some c -> cached_ok w key c.


(** The configuration as [register_store] leaves it after popping the keys
    it consumes. *)
Definition without_model (include_model : bool) (config : gmap string cval)
  : gmap string cval :=
  if include_model then delete "model" config else config.

Definition registered_config (include_model : bool)
  (config : gmap string cval) : gmap string cval :=
  delete "namespace"
    (delete "model_provider" (without_model include_model config)).

(** The namespace an explicit [namespace] argument designates. *)
Definition explicit_target (ns : namespace_arg) : option ns_ref :=
  match ns with
  | NaName name =>
      if str_truthy name
      then Some (if String.eqb name "default" then [] else path_of (Some name))
      else None
  | NaObj r => Some r
  | _ => None
  end.

(** The targeting rule in the spec's words: an explicit namespace wins, with
    ["default"] meaning the root; else a store named exactly ["default"]
    targets the root; else the namespace named after the store. *)
Definition spec_target (ns : namespace_arg) (store : option string)
  : ns_ref :=
  match explicit_target ns with
  | Some target => target
  | None =>
      match store with
      | Some s => if String.eqb s "default" then [] else path_of store
      | None => path_of store
      end
  end.

(** The method [m] leaves the component [f] of the workspace as it finds
    it, whether it returns or raises. *)
Definition keeps {A B} (f : Workspace -> B) (m : M A) : Prop :=
  forall w, f (state_of (m w)) = f w.

(** Every call the method makes satisfies [P]. *)
Definition emits {A} (P : event -> Prop) (m : M A) : Prop :=
  forall w, Forall P (trace_of (m w)).

(** Every value the method returns satisfies [Q]. *)
Definition returns {A} (Q : A -> Prop) (m : M A) : Prop :=
  forall w a w' t, m w = (inr a, w', t) -> Q a.

(** The calls that belong to the resolution of a cube. *)
Definition resolution_event (e : event) : bool :=
  match e with
  | EvAuthorize _ _ | EvCacheLookup _ | EvCacheStore _ _ | EvFindCube _
  | EvProviderCube _ _ _ | EvTranslationLookup _ _ | EvLocalize _ => true
  | _ => false
  end.

(** The method keeps the invariant [I], whether it returns or raises. *)
Definition preserves {A} (I : Workspace -> Prop) (m : M A) : Prop :=
  forall w, I w -> I (state_of (m w)).

(** Every live store was built from the configuration that is registered
    under its name. *)
Definition stores_match (w : Workspace) : Prop :=
  forall n s,
    stores w !! n = Some s ->
    exists type_, store_infos w !! n = Some (type_, store_options s).

(** The store [browser()] opens for a cube. *)
Definition cube_store_name (c : Cube) : string :=
  match cube_store c with
  | SfName s => if str_truthy s then s else "default"
  | _ => "default"
  end.

(** The browser class [browser()] chooses: the cube's, else the store's
    default, else the store's type. *)
Definition browser_name_for (c : Cube) (store : Store)
  (store_type : string) : string :=
  str_or (opt_or (cube_browser c) (default_browser_name store)) store_type.

(** The options [browser()] hands to the browser class for its settings. *)
Definition browser_options_for (w : Workspace) (c : Cube)
  (store_info : gmap string cval) : gmap string cval :=
  delete "naming"
    (delete "url" ((CStr <$> _browser_options w c) ∪ store_info)).

(** The naming convention [browser()] looks up. *)
Definition naming_name_for (w : Workspace) (c : Cube)
  (store_info : gmap string cval) : cval :=
  default (CStr "default")
    (delete "url" ((CStr <$> _browser_options w c) ∪ store_info)
       !! "naming").

(** The provider [import_model] makes from a provider name, before it is
    bound to a store. *)
Definition new_provider (X : Extensions) (name : string) (md : Metadata)
  : Provider :=
  {| prov_type := name; prov_metadata := md; prov_store := SfAbsent;
     prov_requires_store :=
       from_option pc_requires_store false (provider_extension X name) |}.

(** The namespace of a store's models: the root for ["default"], else the
    namespace named after the store. *)
Definition store_namespace (store : string) : ns_ref :=
  if String.eqb store "default" then [] else path_of (Some store).

(** The providers that come with a store class: its related model
    provider, when it names one. *)
Definition related_providers (cls : StoreClass) : list string :=
  match sc_related_model_provider cls with
  | Some name => if str_truthy name then [name] else []
  | None => []
  end.

Module DemoImport.

(** A workspace with a second store, ["warehouse"], that brings no model. *)
Definition two_stores : Workspace :=
  state_of (register_store Demo.ext "warehouse" "sql" true ∅
              (Demo.populated None)).

Definition providers_at (path : ns_ref) (w : Workspace) : option nat :=
  (fun n => length (ns_providers n)) <$> ns_get path (namespace w).

End DemoImport.

Module DemoLocale.

Definition french : Translation := {[ "sales" := "Ventes" ]}.

End DemoLocale.

Module DemoDup.

Definition revenue_decl : CubeDecl :=
  {| cd_name := "sales"; cd_label := Some "Revenue"; cd_category := None;
     cd_info := None; cd_browser := None; cd_browser_options := ∅;
     cd_locale := None |}.

Definition second_model : Metadata :=
  {| md_provider := None; md_store := None; md_cubes := [revenue_decl] |}.

(** Two providers of the root namespace that both declare ["sales"]. *)
Definition twice (auth : option Authorizer) : Workspace :=
  state_of (import_model Demo.ext (MaDict second_model) PaNone
              (Some "default") NaNone (Demo.populated auth)).

(** An authorizer that answers with a name nobody declares. *)
Definition ghost : Authorizer := fun _ _ => ["ghost"].

End DemoDup.

Module DemoBrowser.

(** A default store registered with a URL and a schema. *)
Definition workspace : Workspace :=
  state_of
    (register_store Demo.ext "default" "sql" true
       {[ "url" := CStr "sqlite:///data.sqlite";
          "schema" := CStr "public";
          "model" := CModel Demo.model ]} (new_workspace None)).

(** A cube object with a browser option of its own. *)
Definition sales : Cube :=
  {| cube_oid := 100; cube_name := "sales"; cube_basename := "sales";
     cube_namespace := Some []; cube_store := SfAbsent;
     cube_browser := None;
     cube_browser_options := {[ "schema" := "reporting" ]};
     cube_locale := Some "en"; cube_label := Some "Sales" |}.

End DemoBrowser.

Module DemoSlicer.

(** A slicer store class that names ["slicer"] as its model provider. *)
Definition slicer_store : StoreClass :=
  {| sc_extension_name := Some "slicer";
     sc_related_model_provider := Some "slicer";
     sc_default_browser_name := None;
     sc_accepts := fun _ => true |}.

Definition ext : Extensions :=
  {| store_extension := fun n =>
       if String.eqb n "slicer" then Some slicer_store else None;
     provider_extension := fun n =>
       if String.eqb n "slicer" then Some {| pc_requires_store := true |}
       else None;
     browser_extension := fun n =>
       if String.eqb n "slicer"
       then Some {| bc_distill_settings := fun o => inr o |} else None;
     read_model_metadata := fun _ => inl (ConfigurationError UnknownModel);
     distill_naming := fun n => n;
     provider_bind := fun p s => p |}.

End DemoSlicer.

(** * Properties *)

(** ** Running a method step by step *)

Lemma bind_inr {A B} (m : M A) (k : A -> M B) w b w' t :
  bind m k w = (inr b, w', t) ->
  exists a w1 t1 t2,
    m w = (inr a, w1, t1) /\ k a w1 = (inr b, w', t2) /\ t = t1 ++ t2.
Proof.
  unfold bind. destruct (m w) as [[[e|a] w1] t1]; [discriminate|].
  destruct (k a w1) as [[r w2] t2] eqn:Hk. intros [= -> -> <-].
  exists a, w1, t1, t2. auto.
Qed.

Lemma bind_run {A B} (m : M A) (k : A -> M B) w a w1 t1 :
  m w = (inr a, w1, t1) ->
  bind m k w = ((k a w1).1.1, (k a w1).1.2, t1 ++ (k a w1).2).
Proof.
  intros H. unfold bind. rewrite H. destruct (k a w1) as [[r w2] t2].
  reflexivity.
Qed.

Lemma bind_fail {A B} (m : M A) (k : A -> M B) w e w1 t1 :
  m w = (inl e, w1, t1) -> bind m k w = (inl e, w1, t1).
Proof. intros H. unfold bind. rewrite H. reflexivity. Qed.

Ltac run :=
  cbv [bind ret raise get modify emit lift alloc result_of state_of trace_of];
  cbn [fst snd app].

(** ** The reference must be a string *)

(** C9 (as the code has it): for every value passed as the reference that is
    not a string, [cube] raises Python's built-in [TypeError], not the
    package's [ArgumentError]; it does so at once, before the authorizer or
    the cache is touched, and leaves the workspace as it was. *)
Theorem cube_rejects_non_string (ref identity : pyval)
  (locale : option string) (w : Workspace) :
  (forall s, ref <> PStr s) ->
  cube ref identity locale w = (inl TypeError, w, []).
Proof.
  intros Hns. destruct ref as [ | z | s ]; try reflexivity.
  exfalso. exact (Hns s eq_refl).
Qed.

Lemma cube_rejects_non_string_witness :
  cube (PInt 7) (PStr "alice") (Some "fr") (Demo.populated None)
  = (inl TypeError, Demo.populated None, []).
Proof.
  apply (cube_rejects_non_string (PInt 7)). intros s. discriminate.
Defined.

(** C9 as the claim words it fails: the exception is not [ArgumentError]. *)
Lemma cube_non_string_not_argument_error :
  result_of (cube (PInt 7) PNone None (new_workspace None))
  <> inl ArgumentError.
Proof. cbn. discriminate. Qed.

(** ** Flushing the lookup cache *)

Lemma find_upwards_claims t basename rpath ns p :
  find_upwards t basename rpath = Some (ns, p) ->
  exists n, ns_get ns t = Some n
            /\ claiming (ns_providers n) basename = Some p.
Proof.
  induction rpath as [ | seg up IH ]; cbn [find_upwards].
  - destruct (ns_get (rev []) t) as [n|] eqn:Hn; [|discriminate].
    destruct (claiming (ns_providers n) basename) as [q|] eqn:Hq;
      [|discriminate].
    intros [= <- <-]. eauto.
  - destruct (ns_get (rev (seg :: up)) t) as [n|] eqn:Hn.
    + destruct (claiming (ns_providers n) basename) as [q|] eqn:Hq.
      * intros [= <- <-]. eauto.
      * apply IH.
    + apply IH.
Qed.

Lemma claiming_has_cube ps basename p :
  claiming ps basename = Some p -> has_cube p basename = true /\ In p ps.
Proof.
  unfold claiming. intros H. apply find_some in H. tauto.
Qed.

Lemma find_cube_declared ref t ns p basename :
  find_cube ref t = inr (ns, p, basename) ->
  exists d, provider_decl p basename = Some d.
Proof.
  unfold find_cube. destruct (rev (split_dots "" ref)) as [ | b rpath ];
    [discriminate|].
  destruct (find_upwards t b rpath) as [[ns' p']|] eqn:Hf; [|discriminate].
  intros [= <- <- <-].
  apply find_upwards_claims in Hf as (n & _ & Hc).
  apply claiming_has_cube in Hc as [Hc _]. unfold has_cube in Hc.
  destruct (provider_decl p' b) as [d|]; [eauto|discriminate].
Qed.

(** Resolution of a reference the tree knows succeeds. *)
Lemma resolve_cube_found ref locale w ns p basename :
  find_cube ref (namespace w) = inr (ns, p, basename) ->
  exists c w' t, resolve_cube ref locale w = (inr c, w', t)
    /\ cube_name c = ref /\ cube_basename c = basename
    /\ cube_namespace c = Some ns /\ cube_store c = prov_store p
    /\ next_oid w <= cube_oid c < next_oid w'
    /\ w' = set_next_oid (next_oid w') w.
Proof.
  intros Hf. destruct (find_cube_declared _ _ _ _ _ Hf) as [d Hd].
  unfold resolve_cube, provider_cube, localized. run. rewrite Hf. run.
  rewrite Hd. run.
  destruct (translation_lookup (namespace w) ns locale) as [ | tr trs ];
    run; do 3 eexists; (split; [reflexivity|]); cbn;
    repeat split; try lia.
Qed.

Lemma resolve_cube_missing ref locale w e :
  find_cube ref (namespace w) = inl e ->
  resolve_cube ref locale w = (inl e, w, [EvFindCube ref]).
Proof. intros Hf. unfold resolve_cube. run. rewrite Hf. reflexivity. Qed.

Lemma find_cube_error ref t e :
  find_cube ref t = inl e -> e = NoSuchCubeError ref.
Proof.
  unfold find_cube. destruct (rev (split_dots "" ref)) as [ | b rpath ].
  - intros [= <-]. reflexivity.
  - destruct (find_upwards t b rpath) as [[ns p]|]; [discriminate|].
    intros [= <-]. reflexivity.
Qed.

Lemma authorize_ref_admitted ref identity w :
  admitted w ref identity = true ->
  exists t, authorize_ref ref identity w = (inr tt, w, t).
Proof.
  unfold admitted, authorize_ref. run.
  destruct (authorizer w) as [auth|]; [|eauto].
  destruct (auth identity [ref]); [discriminate|eauto].
Qed.

(** C8: [flush_lookup_cache] returns normally, empties the cube cache and
    changes no other part of the workspace: the store configurations, the
    live stores and the namespace tree with its providers and translations
    stay as they were; hence every reference the tree resolves, and the
    authorizer admits, resolves again right after the flush with nothing
    registered anew. *)
Theorem flush_lookup_cache_frame (w : Workspace) :
  let w' := state_of (flush_lookup_cache w) in
  result_of (flush_lookup_cache w) = inr tt
  /\ _cubes w' = ∅
  /\ store_infos w' = store_infos w
  /\ stores w' = stores w
  /\ namespace w' = namespace w
  /\ authorizer w' = authorizer w
  /\ browser_options w' = browser_options w
  /\ namings w' = namings w
  /\ (forall ref identity locale found,
        find_cube ref (namespace w) = inr found ->
        admitted w ref identity = true ->
        exists c, result_of (cube (PStr ref) identity locale w') = inr c
                  /\ cube_name c = ref).
Proof.
  cbn. repeat (split; [reflexivity|]).
  intros ref identity locale [[ns p] b] Hfound Hadm.
  set (w' := set_cubes ∅ w).
  destruct (authorize_ref_admitted ref identity w' Hadm) as [ta Ha].
  destruct (resolve_cube_found ref locale w' ns p b Hfound)
    as (c & w2 & t & Hr & Hname & _).
  exists c. split; [|exact Hname].
  unfold cube. rewrite (bind_run _ _ _ _ _ _ Ha). cbn [fst snd].
  unfold lookup_or_resolve. run. cbn [_cubes w' set_cubes].
  rewrite lookup_empty.
  rewrite Hr. reflexivity.
Qed.

(** ** Authorization *)

Lemma cube_unfold ref identity locale :
  cube (PStr ref) identity locale
  = (authorize_ref ref identity ;;; lookup_or_resolve ref identity locale).
Proof. reflexivity. Qed.

Lemma lookup_or_resolve_hit ref identity locale w c :
  _cubes w !! (ref, identity, locale) = Some c ->
  lookup_or_resolve ref identity locale w
  = (inr c, w, [EvCacheLookup (ref, identity, locale)]).
Proof. intros H. unfold lookup_or_resolve. run. rewrite H. reflexivity. Qed.

Lemma lookup_or_resolve_miss ref identity locale w :
  _cubes w !! (ref, identity, locale) = None ->
  lookup_or_resolve ref identity locale w
  = match resolve_cube ref locale w with
    | (inl e, w1, t) =>
        (inl e, w1, EvCacheLookup (ref, identity, locale) :: t)
    | (inr c, w1, t) =>
        (inr c,
         set_cubes (<[(ref, identity, locale) := c]> (_cubes w1)) w1,
         EvCacheLookup (ref, identity, locale)
           :: t ++ [EvCacheStore (ref, identity, locale) (cube_oid c)])
    end.
Proof.
  intros H. unfold lookup_or_resolve. run. rewrite H.
  destruct (resolve_cube ref locale w) as [[[e|c] w1] t]; reflexivity.
Qed.

Lemma lookup_or_resolve_not_denied ref identity locale w :
  result_of (lookup_or_resolve ref identity locale w) <> inl NotAuthorized.
Proof.
  destruct (_cubes w !! (ref, identity, locale)) as [c|] eqn:Hc.
  - rewrite (lookup_or_resolve_hit _ _ _ _ _ Hc). discriminate.
  - rewrite (lookup_or_resolve_miss _ _ _ _ Hc).
    destruct (find_cube ref (namespace w)) as [e|[[ns p] b]] eqn:Hf.
    + rewrite (resolve_cube_missing _ _ _ _ Hf).
      apply find_cube_error in Hf as ->. discriminate.
    + destruct (resolve_cube_found ref locale w ns p b Hf)
        as (c & w1 & t & -> & _). discriminate.
Qed.

(** C1: with an authorizer configured (one that returns a subset of the
    references it is asked about), [cube(ref, identity, locale)] first
    calls it with [identity] and [[ref]]; the call fails with
    [NotAuthorized] exactly when [ref] is not in the returned list, and
    then the authorizer call is the only thing that happened: the cache was
    not looked up or written, nothing was resolved, and the workspace is
    as before. *)
Theorem cube_authorization (w : Workspace) (auth : Authorizer)
  (ref : string) (identity : pyval) (locale : option string) :
  authorizer w = Some auth ->
  (forall r, In r (auth identity [ref]) -> r = ref) ->
  let o := cube (PStr ref) identity locale w in
  (exists t, trace_of o = EvAuthorize identity [ref] :: t)
  /\ (result_of o = inl NotAuthorized <-> ~ In ref (auth identity [ref]))
  /\ (~ In ref (auth identity [ref]) ->
      o = (inl NotAuthorized, w, [EvAuthorize identity [ref]])).
Proof.
  intros Hauth Hsub o. subst o. rewrite cube_unfold.
  destruct (auth identity [ref]) as [ | r rs ] eqn:Hlist.
  - assert (Hrun : authorize_ref ref identity w
                   = (inl NotAuthorized, w, [EvAuthorize identity [ref]])).
    { unfold authorize_ref. run. rewrite Hauth. run. rewrite Hlist.
      reflexivity. }
    rewrite (bind_fail _ _ _ _ _ _ Hrun). cbn.
    split; [eauto|]. split; [|reflexivity]. split; [tauto|reflexivity].
  - assert (r = ref) as -> by (apply Hsub; left; reflexivity).
    assert (Hrun : authorize_ref ref identity w
                   = (inr tt, w, [EvAuthorize identity [ref]])).
    { unfold authorize_ref. run. rewrite Hauth. run. rewrite Hlist.
      reflexivity. }
    rewrite (bind_run _ _ _ _ _ _ Hrun).
    pose proof (lookup_or_resolve_not_denied ref identity locale w) as Hnd.
    unfold result_of in Hnd. cbn [result_of trace_of fst snd app].
    split; [eauto|]. split.
    + split; [intros H; contradiction | intros H; exfalso; apply H; left;
                                        reflexivity].
    + intros H. exfalso. apply H. left. reflexivity.
Qed.

Lemma cube_authorization_witness :
  let w := Demo.populated (Some Demo.only_alice) in
  let o := cube (PStr "sales") (PStr "bob") None w in
  (exists t, trace_of o = EvAuthorize (PStr "bob") ["sales"] :: t)
  /\ (result_of o = inl NotAuthorized
      <-> ~ In "sales" (Demo.only_alice (PStr "bob") ["sales"]))
  /\ (~ In "sales" (Demo.only_alice (PStr "bob") ["sales"]) ->
      o = (inl NotAuthorized, w, [EvAuthorize (PStr "bob") ["sales"]])).
Proof.
  apply (cube_authorization (Demo.populated (Some Demo.only_alice))
           Demo.only_alice "sales" (PStr "bob") None).
  - reflexivity.
  - cbn. tauto.
Defined.

(** ** The cube cache *)

Lemma new_workspace_consistent auth : cache_consistent (new_workspace auth).
Proof. intros key c H. cbn in H. rewrite lookup_empty in H. discriminate. Qed.

Lemma flushed_consistent w :
  cache_consistent (state_of (flush_lookup_cache w)).
Proof. intros key c H. cbn in H. rewrite lookup_empty in H. discriminate. Qed.

Lemma authorize_ref_run ref identity w :
  authorize_ref ref identity w
  = (if admitted w ref identity then inr tt else inl NotAuthorized,
     w, auth_trace w ref identity).
Proof.
  unfold authorize_ref, admitted, auth_trace. run.
  destruct (authorizer w) as [auth|]; [|reflexivity]. run.
  destruct (auth identity [ref]); reflexivity.
Qed.

Lemma cube_denied ref identity locale w :
  admitted w ref identity = false ->
  cube (PStr ref) identity locale w
  = (inl NotAuthorized, w, auth_trace w ref identity).
Proof.
  intros H. rewrite cube_unfold. apply bind_fail.
  rewrite authorize_ref_run, H. reflexivity.
Qed.

Lemma cube_admitted ref identity locale w :
  admitted w ref identity = true ->
  cube (PStr ref) identity locale w
  = let o := lookup_or_resolve ref identity locale w in
    (o.1.1, o.1.2, auth_trace w ref identity ++ o.2).
Proof.
  intros H. rewrite cube_unfold.
  refine (bind_run _ (fun _ => lookup_or_resolve ref identity locale)
            w tt w _ _).
  rewrite authorize_ref_run, H. reflexivity.
Qed.

(** A successful [cube()] call leaves the returned object in the cache
    under the call's key, and the cache consistent if it was. *)
Lemma cube_success ref identity locale w c w1 t :
  cache_consistent w ->
  cube (PStr ref) identity locale w = (inr c, w1, t) ->
  admitted w ref identity = true
  /\ _cubes w1 !! (ref, identity, locale) = Some c
  /\ cache_consistent w1
  /\ authorizer w1 = authorizer w
  /\ namespace w1 = namespace w
  /\ (_cubes w !! (ref, identity, locale) = None ->
      next_oid w <= cube_oid c).
Proof.
  intros Hinv Hrun.
  destruct (admitted w ref identity) eqn:Hadm;
    [|rewrite (cube_denied _ _ _ _ Hadm) in Hrun; discriminate].
  split; [reflexivity|].
  rewrite (cube_admitted _ _ _ _ Hadm) in Hrun. cbn zeta in Hrun.
  destruct (_cubes w !! (ref, identity, locale)) as [c0|] eqn:Hc.
  - rewrite (lookup_or_resolve_hit _ _ _ _ _ Hc) in Hrun.
    cbn in Hrun. simplify_eq.
    split; [exact Hc|]. split; [exact Hinv|].
    split; [reflexivity|]. split; [reflexivity|]. discriminate.
  - rewrite (lookup_or_resolve_miss _ _ _ _ Hc) in Hrun.
    destruct (find_cube ref (namespace w)) as [e|[[ns p] b]] eqn:Hf.
    { rewrite (resolve_cube_missing _ _ _ _ Hf) in Hrun. discriminate. }
    destruct (resolve_cube_found ref locale w ns p b Hf)
      as (c' & w' & t' & Hr & Hname & Hbase & Hns & Hst & Hoid & Hw').
    rewrite Hr in Hrun. cbn in Hrun. injection Hrun as -> <- _.
    rewrite Hw'. cbn.
    split; [apply lookup_insert_eq|].
    split; [|split; [reflexivity|split; [reflexivity|intros _; lia]]].
    intros key c0. cbn.
    destruct (decide ((ref, identity, locale) = key)) as [<-|Hne].
    + rewrite lookup_insert_eq. intros [= <-]. split; [cbn; lia|].
      exists ns, p, b. cbn. auto.
    + rewrite lookup_insert_ne by exact Hne. intros Hk.
      destruct (Hinv key c0 Hk) as [Hlt Hrest].
      split; [cbn; lia | exact Hrest].
Qed.

Lemma empty_cache_consistent w : _cubes w = ∅ -> cache_consistent w.
Proof. intros He key c H. rewrite He, lookup_empty in H. discriminate. Qed.

(** C2: two consecutive [cube()] calls with the same reference, identity
    and locale return the same object (the second call finds the first
    call's result in the cache and leaves the workspace alone); after
    [flush_lookup_cache()] the next call with these arguments succeeds with
    a new object, not the one cached before. *)
Theorem cube_cached_until_flush (w : Workspace) (ref : string)
  (identity : pyval) (locale : option string)
  (c1 : Cube) (w1 : Workspace) (t1 : list event) :
  cache_consistent w ->
  cube (PStr ref) identity locale w = (inr c1, w1, t1) ->
  (exists t2, cube (PStr ref) identity locale w1 = (inr c1, w1, t2))
  /\ (exists c3 w3 t3,
        cube (PStr ref) identity locale (state_of (flush_lookup_cache w1))
        = (inr c3, w3, t3)
        /\ cube_oid c3 <> cube_oid c1
        /\ _cubes w3 !! (ref, identity, locale) = Some c3).
Proof.
  intros Hinv Hrun.
  destruct (cube_success _ _ _ _ _ _ _ Hinv Hrun)
    as (Hadm & Hcached & Hinv1 & Hauth & Hns & _).
  assert (Hadm1 : admitted w1 ref identity = true)
    by (unfold admitted in *; rewrite Hauth; exact Hadm).
  split.
  - rewrite (cube_admitted _ _ _ _ Hadm1).
    rewrite (lookup_or_resolve_hit _ _ _ _ _ Hcached). cbn. eauto.
  - destruct (Hinv1 _ _ Hcached) as [Hlt (ns & p & b & Hf & _)].
    cbn in Hf. cbn [state_of flush_lookup_cache modify fst snd].
    set (wf := set_cubes ∅ w1).
    assert (Hadmf : admitted wf ref identity = true) by exact Hadm1.
    assert (Hmiss : _cubes wf !! (ref, identity, locale) = None)
      by apply lookup_empty.
    destruct (resolve_cube_found ref locale wf ns p b Hf)
      as (c3 & w3 & t3 & Hr & _ & _ & _ & _ & Hoid & _).
    rewrite (cube_admitted _ _ _ _ Hadmf).
    rewrite (lookup_or_resolve_miss _ _ _ _ Hmiss), Hr. cbn.
    do 3 eexists. split; [reflexivity|].
    split; [cbn in Hoid; lia | apply lookup_insert_eq].
Qed.

Lemma cube_cached_until_flush_witness :
  let w := Demo.populated None in
  let o := cube (PStr "sales") (PStr "alice") (Some "fr") w in
  exists c1,
    result_of o = inr c1
    /\ (exists t2, cube (PStr "sales") (PStr "alice") (Some "fr") (state_of o)
                   = (inr c1, state_of o, t2))
    /\ (exists c3 w3 t3,
          cube (PStr "sales") (PStr "alice") (Some "fr")
               (state_of (flush_lookup_cache (state_of o)))
          = (inr c3, w3, t3)
          /\ cube_oid c3 <> cube_oid c1
          /\ _cubes w3 !! ("sales", PStr "alice", Some "fr") = Some c3).
Proof.
  intros w o.
  destruct o as [[[e|c1] w1] t1] eqn:Ho; [vm_compute in Ho; discriminate|].
  exists c1. split; [reflexivity|].
  apply (cube_cached_until_flush w "sales" (PStr "alice") (Some "fr")
           c1 w1 t1).
  - apply empty_cache_consistent. reflexivity.
  - exact Ho.
Defined.

(** ** Stamping *)






(** ** Frame conditions of the methods *)

Section Keeps.

Context {B : Type} (f : Workspace -> B).

Lemma keeps_ret {A} (a : A) : keeps f (ret a).
Proof. intros w. reflexivity. Qed.

Lemma keeps_raise {A} (e : error) : keeps f (@raise A e).
Proof. intros w. reflexivity. Qed.

Lemma keeps_get : keeps f get.
Proof. intros w. reflexivity. Qed.

Lemma keeps_emit (e : event) : keeps f (emit e).
Proof. intros w. reflexivity. Qed.

Lemma keeps_lift {A} (r : error + A) : keeps f (lift r).
Proof. intros w. destruct r; reflexivity. Qed.

Lemma keeps_modify (g : Workspace -> Workspace) :
  (forall w, f (g w) = f w) -> keeps f (modify g).
Proof. intros H w. apply H. Qed.

Lemma keeps_bind {A C} (m : M A) (k : A -> M C) :
  keeps f m -> (forall a, keeps f (k a)) -> keeps f (bind m k).
Proof.
  intros Hm Hk w. specialize (Hm w). unfold state_of, bind in *.
  destruct (m w) as [[[e|a] w1] t1]; cbn in *; [exact Hm|].
  specialize (Hk a w1). unfold state_of in Hk.
  destruct (k a w1) as [[r w2] t2]. cbn in *. congruence.
Qed.

End Keeps.

Ltac keeps_step :=
  first
    [ apply keeps_ret | apply keeps_raise | apply keeps_get
    | apply keeps_emit | apply keeps_lift
    | apply keeps_modify; intros ?; reflexivity
    | apply keeps_bind; [|intros ?]
    | match goal with
      | |- keeps _ (match ?x with _ => _ end) => destruct x
      end ].

Ltac keeps_auto := repeat keeps_step.

Lemma alloc_keeps {B} (f : Workspace -> B) :
  (forall n w, f (set_next_oid n w) = f w) -> keeps f alloc.
Proof. intros H w. apply H. Qed.

Lemma get_store_keeps_infos X name : keeps store_infos (get_store X name).
Proof.
  unfold get_store, store_concrete_extension, create_with_dict.
  keeps_auto; try (apply alloc_keeps; reflexivity).
Qed.

Lemma get_store_keeps_namespace X name : keeps namespace (get_store X name).
Proof.
  unfold get_store, store_concrete_extension, create_with_dict.
  keeps_auto; try (apply alloc_keeps; reflexivity).
Qed.

Lemma get_store_keeps_cubes X name : keeps _cubes (get_store X name).
Proof.
  unfold get_store, store_concrete_extension, create_with_dict.
  keeps_auto; try (apply alloc_keeps; reflexivity).
Qed.

Lemma import_model_keeps_infos X model provider store ns :
  keeps store_infos (import_model X model provider store ns).
Proof.
  unfold import_model, bind_store, model_metadata, model_provider,
    make_provider, target_namespace, register_provider.
  keeps_auto; try apply get_store_keeps_infos.
  all: try (apply keeps_modify; intros w; destruct (ns_get _ _); reflexivity).
Qed.

(** ** Store registration *)

Lemma register_store_duplicate X name type_ include_model config w :
  is_Some (store_infos w !! name) ->
  register_store X name type_ include_model config w
  = (inl (ConfigurationError (StoreAlreadyRegistered name)), w, []).
Proof.
  intros [x Hx]. unfold register_store. run. rewrite Hx. reflexivity.
Qed.

Lemma register_store_unknown_type X name type_ include_model config w :
  store_infos w !! name = None ->
  store_extension X type_ = None ->
  register_store X name type_ include_model config w
  = (inl (ConfigurationError (UnknownExtension "store" type_)),
     set_store_infos
       (<[name := (type_, without_model include_model config)]>
          (store_infos w)) w,
     [EvStoreExtension type_]).
Proof.
  intros Hfree Hext.
  unfold register_store, record_store, store_concrete_extension. run.
  rewrite Hfree. cbn. rewrite Hext. cbn.
  unfold without_model. rewrite insert_insert_eq.
  destruct include_model; reflexivity.
Qed.

Lemma import_store_model_keeps_infos X name model provider nsname :
  keeps store_infos (import_store_model X name model provider nsname).
Proof.
  unfold import_store_model.
  destruct (from_option cval_truthy false model);
    [apply import_model_keeps_infos|].
  destruct (provider_arg_truthy provider);
    [apply import_model_keeps_infos | apply keeps_ret].
Qed.

Lemma register_store_infos_known X name type_ include_model config w cls :
  store_infos w !! name = None ->
  store_extension X type_ = Some cls ->
  store_infos (state_of (register_store X name type_ include_model config w))
  = <[name := (type_, registered_config include_model config)]>
      (store_infos w).
Proof.
  intros Hfree Hext.
  unfold register_store, record_store, store_concrete_extension. run.
  rewrite Hfree. cbn. rewrite Hext. cbn.
  fold (without_model include_model config).
  fold (registered_config include_model config).
  match goal with
  | |- context [import_store_model X ?a ?b ?c ?d ?w3] =>
      pose proof (import_store_model_keeps_infos X a b c d w3) as Hk;
      unfold state_of in Hk;
      destruct (import_store_model X a b c d w3) as [[r w4] t4]
  end.
  cbn in *. rewrite Hk, !insert_insert_eq. reflexivity.
Qed.

Lemma register_store_dict_no_type X name info w :
  info !! "type" = None -> info !! "backend" = None ->
  _register_store_dict X name info w
  = (inl (ConfigurationError (StoreHasNoType name)), w, []).
Proof.
  intros Ht Hb. unfold _register_store_dict. run. rewrite Ht, Hb.
  reflexivity.
Qed.

(** C4 as the claim words it fails: a registration that fails on an unknown
    store type has already recorded the pair in [store_infos]. *)
Lemma register_store_failure_leaves_record :
  let w := new_workspace None in
  let o := register_store Demo.ext "s" "nosuch" true ∅ w in
  result_of o = inl (ConfigurationError (UnknownExtension "store" "nosuch"))
  /\ store_infos (state_of o) <> store_infos w.
Proof.
  split; [reflexivity|].
  intros H. apply (f_equal (fun m => m !! "s")) in H.
  vm_compute in H. discriminate.
Qed.

(** C4 (as the code has it): [register_store] fails with
    [ConfigurationError] when the name is already registered, and the
    dictionary form fails with it when the dictionary has neither a
    ["type"] nor a ["backend"] key; both leave the workspace, [store_infos]
    included, untouched.  A type that resolves to no store extension fails
    with [ConfigurationError] as well, but the pair of the type and the
    configuration is recorded under the name before the type is resolved,
    and stays recorded.  With a known type the pair is recorded under the
    name however the rest of the registration ends. *)
Theorem register_store_records (X : Extensions) (name type_ : string)
  (include_model : bool) (config info : gmap string cval) (w : Workspace) :
  (is_Some (store_infos w !! name) ->
   register_store X name type_ include_model config w
   = (inl (ConfigurationError (StoreAlreadyRegistered name)), w, []))
  /\ (info !! "type" = None -> info !! "backend" = None ->
      _register_store_dict X name info w
      = (inl (ConfigurationError (StoreHasNoType name)), w, []))
  /\ (store_infos w !! name = None -> store_extension X type_ = None ->
      let o := register_store X name type_ include_model config w in
      result_of o = inl (ConfigurationError (UnknownExtension "store" type_))
      /\ store_infos (state_of o)
         = <[name := (type_, without_model include_model config)]>
             (store_infos w))
  /\ (store_infos w !! name = None -> is_Some (store_extension X type_) ->
      let o := register_store X name type_ include_model config w in
      store_infos (state_of o)
      = <[name := (type_, registered_config include_model config)]>
          (store_infos w)).
Proof.
  split; [apply register_store_duplicate|].
  split; [apply register_store_dict_no_type|].
  split.
  - intros Hfree Hext o. subst o.
    rewrite (register_store_unknown_type _ _ _ _ _ _ Hfree Hext).
    split; reflexivity.
  - intros Hfree [cls Hext] o. subst o.
    exact (register_store_infos_known _ _ _ _ _ _ _ Hfree Hext).
Qed.

(** ** Listing cubes *)

Lemma by_name_acc_lookup (l : list CubeDescriptor)
  (m : gmap string CubeDescriptor) (n : string) (d : CubeDescriptor) :
  foldl (fun m d => <[desc_name d := d]> m) m l !! n = Some d ->
  (In d l /\ desc_name d = n) \/ m !! n = Some d.
Proof.
  revert m. induction l as [ | x l IH ]; intros m; cbn; [auto|].
  intros H. destruct (IH _ H) as [[Hin Hn]|Hm]; [left; split; auto|].
  destruct (decide (desc_name x = n)) as [Heq|Hne].
  - rewrite <- Heq, lookup_insert_eq in Hm. injection Hm as <-.
    left. split; [left; reflexivity | exact Heq].
  - rewrite lookup_insert_ne in Hm by exact Hne. right. exact Hm.
Qed.

Lemma by_name_acc_some (l : list CubeDescriptor)
  (m : gmap string CubeDescriptor) (n : string) :
  In n (map desc_name l) \/ is_Some (m !! n) ->
  is_Some (foldl (fun m d => <[desc_name d := d]> m) m l !! n).
Proof.
  revert m. induction l as [ | x l IH ]; intros m; cbn.
  - intros [[]|H]. exact H.
  - intros [[Hx|Hin]|Hm]; apply IH; auto; right.
    + rewrite <- Hx, lookup_insert_eq. eauto.
    + destruct (decide (desc_name x = n)) as [<-|Hne].
      * rewrite lookup_insert_eq. eauto.
      * rewrite lookup_insert_ne by exact Hne. exact Hm.
Qed.

Lemma pick_names (all_cubes : list CubeDescriptor) (names : list string) :
  (forall n, In n names -> In n (map desc_name all_cubes)) ->
  exists ds, pick (by_name all_cubes) names = Some ds
             /\ map desc_name ds = names
             /\ (forall d, In d ds -> In d all_cubes).
Proof.
  induction names as [ | n names IH ]; intros Hsub.
  - exists []. cbn. split; [reflexivity|]. split; [reflexivity|].
    intros d [].
  - destruct IH as (ds & Hp & Hn & Hin);
      [intros n' Hn'; apply Hsub; right; exact Hn'|].
    destruct (by_name_acc_some all_cubes ∅ n) as [d Hd];
      [left; apply Hsub; left; reflexivity|].
    exists (d :: ds). cbn. unfold by_name in *. rewrite Hd, Hp.
    destruct (by_name_acc_lookup _ _ _ _ Hd) as [[Hdin Hdn]|He];
      [|rewrite lookup_empty in He; discriminate].
    split; [reflexivity|]. split; [cbn; congruence|].
    intros d' [<-|H']; [exact Hdin | exact (Hin d' H')].
Qed.

(** Without an authorizer [list_cubes] returns what the providers declare,
    unfiltered. *)
Lemma list_cubes_unfiltered identity w :
  authorizer w = None ->
  list_cubes identity w
  = (inr (ns_list_cubes (namespace w)), w, [EvListCubes]).
Proof. intros H. unfold list_cubes. run. rewrite H. reflexivity. Qed.

(** With an authorizer that returns a subset of the names it is given,
    [list_cubes] returns one declared descriptor for each approved name, in
    the order of the authorizer's answer. *)
Lemma list_cubes_authorized identity w auth :
  authorizer w = Some auth ->
  let names := map desc_name (ns_list_cubes (namespace w)) in
  (forall n, In n (auth identity names) -> In n names) ->
  exists ds, result_of (list_cubes identity w) = inr ds
             /\ map desc_name ds = auth identity names
             /\ (forall d, In d ds -> In d (ns_list_cubes (namespace w))).
Proof.
  intros Ha names Hsub.
  destruct (pick_names _ _ Hsub) as (ds & Hp & Hn & Hin).
  exists ds. unfold list_cubes. run. rewrite Ha. run.
  fold names. rewrite Hp. auto.
Qed.

(** C5 fails on [cube_names]: the method takes [identity] and then calls
    [list_cubes()] without it, so the authorizer is asked about [None].
    For ["alice"], whom the authorizer grants the cube, [list_cubes]
    returns the descriptor of ["sales"] and [cube_names] returns no name
    at all. *)
Theorem cube_names_drops_identity :
  let w := Demo.populated (Some Demo.only_alice) in
  result_of (list_cubes (PStr "alice") w)
  = inr [descriptor Demo.sales_decl]
  /\ result_of (cube_names (PStr "alice") w) = inr []
  /\ trace_of (cube_names (PStr "alice") w)
     = [EvListCubes; EvAuthorize PNone ["sales"]].
Proof. repeat split; vm_compute; reflexivity. Qed.

(** ** Opening stores *)

Lemma get_store_cached X name w s :
  stores w !! str_or name "default" = Some s ->
  get_store X name w = (inr s, w, []).
Proof. intros H. unfold get_store. run. rewrite H. reflexivity. Qed.

Lemma get_store_unknown X name w :
  stores w !! str_or name "default" = None ->
  store_infos w !! str_or name "default" = None ->
  get_store X name w
  = (inl (ConfigurationError (UnknownStore (str_or name "default"))), w, []).
Proof.
  intros Hs Hi. unfold get_store. run. rewrite Hs, Hi. reflexivity.
Qed.

Lemma get_store_opens X name w type_ options cls :
  let n := str_or name "default" in
  stores w !! n = None ->
  store_infos w !! n = Some (type_, options) ->
  store_extension X type_ = Some cls ->
  sc_accepts cls options = true ->
  let s := {| store_oid := next_oid w;
              extension_name := sc_extension_name cls;
              default_browser_name := sc_default_browser_name cls;
              store_options := options |} in
  get_store X name w
  = (inr s,
     set_stores (<[n := s]> (stores w)) (set_next_oid (S (next_oid w)) w),
     [EvStoreExtension type_; EvCreateStore n type_]).
Proof.
  intros n Hs Hi Hext Hacc s.
  unfold get_store, store_concrete_extension, create_with_dict. run.
  fold n. rewrite Hs, Hi. cbn. rewrite Hext. cbn. rewrite Hacc.
  reflexivity.
Qed.

(** C6: [get_store(name)], with the name defaulting to ["default"], returns
    the live store cached under the name when there is one, without
    touching anything; otherwise it fails with [ConfigurationError] for an
    unknown store when no configuration is registered under the name; and
    when one is (with a type that resolves and a configuration the store
    class accepts) it constructs the store from the registered type and
    configuration, caches it under the name and returns it, so that the
    next call returns the very same instance and constructs nothing. *)
Theorem get_store_opens_once (X : Extensions) (name : option string)
  (w : Workspace) :
  let n := str_or name "default" in
  get_store X None w = get_store X (Some "default") w
  /\ (forall s, stores w !! n = Some s ->
        get_store X name w = (inr s, w, []))
  /\ (stores w !! n = None -> store_infos w !! n = None ->
      get_store X name w
      = (inl (ConfigurationError (UnknownStore n)), w, []))
  /\ (forall type_ options cls,
        stores w !! n = None ->
        store_infos w !! n = Some (type_, options) ->
        store_extension X type_ = Some cls ->
        sc_accepts cls options = true ->
        exists s w1 t,
          get_store X name w = (inr s, w1, t)
          /\ In (EvCreateStore n type_) t
          /\ store_options s = options
          /\ extension_name s = sc_extension_name cls
          /\ stores w1 = <[n := s]> (stores w)
          /\ store_infos w1 = store_infos w
          /\ get_store X name w1 = (inr s, w1, [])).
Proof.
  intros n. split; [reflexivity|].
  split; [intros s; apply get_store_cached|].
  split; [apply get_store_unknown|].
  intros type_ options cls Hs Hi Hext Hacc.
  do 3 eexists.
  split; [exact (get_store_opens X name w type_ options cls Hs Hi Hext Hacc)|].
  split; [right; left; reflexivity|].
  repeat (split; [reflexivity|]).
  apply get_store_cached. cbn. apply lookup_insert_eq.
Qed.

Lemma get_store_twice_default :
  let w := state_of (register_store Demo.ext "default" "sql" true ∅
                       (new_workspace None)) in
  exists s w1 t,
    get_store Demo.ext None w = (inr s, w1, t)
    /\ get_store Demo.ext None w1 = (inr s, w1, [])
    /\ get_store Demo.ext (Some "default") w1 = (inr s, w1, []).
Proof. do 3 eexists. repeat split; vm_compute; reflexivity. Qed.

(** ** The namespace tree under update *)

Lemma child_lookup_set_eq seg n cs :
  child_lookup seg (child_set seg n cs) = Some n.
Proof.
  induction cs as [ | [k c] cs IH ]; cbn.
  - rewrite String.eqb_refl. reflexivity.
  - destruct (String.eqb k seg) eqn:Hk; cbn; rewrite Hk; [reflexivity|].
    exact IH.
Qed.

Lemma child_lookup_set_ne seg seg' n cs :
  seg <> seg' ->
  child_lookup seg' (child_set seg n cs) = child_lookup seg' cs.
Proof.
  intros Hne. induction cs as [ | [k c] cs IH ]; cbn.
  - destruct (String.eqb seg seg') eqn:H; [|reflexivity].
    apply String.eqb_eq in H. contradiction.
  - destruct (String.eqb k seg) eqn:Hk; cbn.
    + apply String.eqb_eq in Hk as ->.
      destruct (String.eqb seg seg') eqn:H; [|reflexivity].
      apply String.eqb_eq in H. contradiction.
    + destruct (String.eqb k seg'); [reflexivity|exact IH].
Qed.

Lemma ns_get_empty (path : ns_ref) :
  default empty_namespace (ns_get path empty_namespace) = empty_namespace.
Proof. destruct path; reflexivity. Qed.

(** The namespace found at [path] after an update at [path] is the updated
    one, made from an empty namespace when there was none. *)
Lemma ns_get_alter f (path : ns_ref) (t : Namespace) :
  ns_get path (ns_alter f path t)
  = Some (f (default empty_namespace (ns_get path t))).
Proof.
  revert t. induction path as [ | seg rest IH ]; intros t; cbn;
    [reflexivity|].
  rewrite child_lookup_set_eq, IH.
  destruct (child_lookup seg (ns_children t)) as [c|]; cbn; [reflexivity|].
  rewrite ns_get_empty. reflexivity.
Qed.

(** Namespaces off the updated path stay as they are. *)
Lemma ns_get_alter_other f (t : Namespace) seg seg' (rest rest' : ns_ref) :
  seg <> seg' ->
  ns_get (seg' :: rest') (ns_alter f (seg :: rest) t)
  = ns_get (seg' :: rest') t.
Proof.
  intros Hne. cbn. rewrite child_lookup_set_ne by exact Hne. reflexivity.
Qed.

(** ** Where a model is imported *)

Lemma model_metadata_state X model w :
  state_of (model_metadata X model w) = w.
Proof.
  unfold model_metadata. destruct model; run; try reflexivity.
  destruct (read_model_metadata X _); reflexivity.
Qed.

Lemma model_provider_state X provider model w :
  state_of (model_provider X provider model w) = w.
Proof.
  unfold model_provider, make_provider.
  destruct provider as [ | name | p | [|] ]; run; try reflexivity;
    destruct (provider_extension X _); reflexivity.
Qed.

(** Step 4 of [import_model] follows the rule: it yields the namespace the
    rule designates, with its path created in the tree when the target is
    given by name. *)
Lemma target_namespace_run ns store w r w1 t :
  target_namespace ns store w = (inr r, w1, t) ->
  r = spec_target ns store
  /\ w1 = match ns with
          | NaObj _ => w
          | _ => set_namespace (ns_alter id r (namespace w)) w
          end.
Proof.
  assert (Hroot : w = set_namespace (ns_alter id [] (namespace w)) w)
    by (destruct w; reflexivity).
  assert (Hstore : forall r w1 t,
    (if from_option (String.eqb "default") false store then ret []
     else w0 <- get ;;
          let '(t0, r0) := namespace_create store (namespace w0) in
          modify (set_namespace t0) ;;; ret r0) w = (inr r, w1, t) ->
    r = match store with
        | Some s => if String.eqb s "default" then [] else path_of store
        | None => path_of store
        end
    /\ w1 = set_namespace (ns_alter id r (namespace w)) w).
  { intros r' w' t'. destruct store as [s|]; cbn [from_option].
    - rewrite (String.eqb_sym "default" s).
      destruct (String.eqb s "default"); run; intros [= <- <- _]; auto.
    - run. intros [= <- <- _]. auto. }
  unfold target_namespace, spec_target.
  destruct ns as [ | name | r0 | [|] ]; cbn [explicit_target].
  - apply Hstore.
  - destruct (str_truthy name); [|apply Hstore].
    destruct (String.eqb name "default"); run; intros [= <- <- _]; auto.
  - run. intros [= <- <- _]. auto.
  - discriminate.
  - apply Hstore.
Qed.

(** C7: a successful [import_model] appends the provider it resolved (bound
    to its store when there is one) to the provider list of the namespace
    the rule designates -- the namespace of an explicit [namespace]
    argument, with ["default"] for the root; else the root when the
    effective store name is exactly ["default"]; else the namespace named
    after the store -- and that namespace starts out empty when the tree did
    not have it. *)
Theorem import_model_targets (X : Extensions) (model : model_arg)
  (provider : provider_arg) (store : option string) (ns : namespace_arg)
  (w w1 : Workspace) (t : list event) :
  import_model X model provider store ns w = (inr tt, w1, t) ->
  (forall r, ns = NaObj r -> is_Some (ns_get r (namespace w))) ->
  exists md p0 p,
    result_of (model_metadata X model w) = inr md
    /\ result_of (model_provider X provider md w) = inr (Some p0)
    /\ (p = p0 \/ exists s, p = provider_bind X p0 s)
    /\ let target := spec_target ns (opt_or store (md_store md)) in
       ns_get target (namespace w1)
       = Some (add_provider p
                 (default empty_namespace (ns_get target (namespace w)))).
Proof.
  intros Hrun Hobj. unfold import_model in Hrun.
  apply bind_inr in Hrun as (md & wa & ta & t' & Hmd & Hrun & _).
  pose proof (model_metadata_state X model w) as Hwa.
  rewrite Hmd in Hwa. cbn in Hwa. subst wa.
  apply bind_inr in Hrun as (po & wb & tb & t'' & Hpo & Hrun & _).
  pose proof (model_provider_state X provider md w) as Hwb.
  rewrite Hpo in Hwb. cbn in Hwb. subst wb.
  apply bind_inr in Hrun as (pb & wc & tc & t3 & Hbind & Hrun & _).
  apply bind_inr in Hrun as (r & wd & td & t4 & Htarget & Hreg & _).
  destruct pb as [p|]; [|discriminate].
  assert (Hc : namespace wc = namespace w
               /\ exists p0, po = Some p0
                    /\ (p = p0 \/ exists s, p = provider_bind X p0 s)).
  { unfold bind_store in Hbind.
    destruct (opt_truthy (opt_or store (md_store md))
              || from_option prov_requires_store false po).
    - apply bind_inr in Hbind as (s & ws & ts & t5 & Hgs & Hk & _).
      pose proof (get_store_keeps_namespace X (opt_or store (md_store md)) w)
        as Hns.
      rewrite Hgs in Hns. cbn in Hns.
      destruct po as [p0|]; [|discriminate].
      revert Hk. run. intros [= <- <- _]. split; [exact Hns|eauto].
    - revert Hbind. run. intros [= -> <- _]. eauto. }
  destruct Hc as (Hnsc & p0 & -> & Hp).
  exists md, p0, p.
  split; [rewrite Hmd; reflexivity|].
  split; [rewrite Hpo; reflexivity|].
  split; [exact Hp|].
  apply target_namespace_run in Htarget as [Hr Hwd].
  intros target. subst target. rewrite <- Hr.
  assert (Hd : ns_get r (namespace wd)
               = Some (default empty_namespace (ns_get r (namespace w)))).
  { destruct ns as [ | name | r0 | b ]; subst wd; cbn [namespace set_namespace];
      rewrite Hnsc; try apply (ns_get_alter id).
    assert (r = r0) as -> by (rewrite Hr; reflexivity).
    destruct (Hobj r0 eq_refl) as [n Hn]. rewrite Hn. reflexivity. }
  revert Hreg. unfold register_provider. run. rewrite Hd.
  intros [= <-]. cbn [namespace set_namespace].
  rewrite ns_get_alter, Hd. reflexivity.
Qed.

Lemma import_model_targets_witness :
  let w := DemoImport.two_stores in
  let o := import_model Demo.ext (MaDict Demo.model) PaNone
             (Some "warehouse") NaNone w in
  exists w1 md p0 p,
    state_of o = w1
    /\ result_of (model_metadata Demo.ext (MaDict Demo.model) w) = inr md
    /\ result_of (model_provider Demo.ext PaNone md w) = inr (Some p0)
    /\ (p = p0 \/ exists s, p = provider_bind Demo.ext p0 s)
    /\ let target := spec_target NaNone
                       (opt_or (Some "warehouse") (md_store md)) in
       ns_get target (namespace w1)
       = Some (add_provider p
                 (default empty_namespace (ns_get target (namespace w)))).
Proof.
  intros w o.
  destruct o as [[[e|[]] w1] t] eqn:Ho; [vm_compute in Ho; discriminate|].
  exists w1.
  destruct (import_model_targets Demo.ext (MaDict Demo.model) PaNone
              (Some "warehouse") NaNone w w1 t Ho)
    as (md & p0 & p & H);
    [intros r Hr; discriminate|].
  exists md, p0, p. split; [reflexivity | exact H].
Defined.

(** The three cases of the rule on the workspace above: a store other than
    ["default"] gets a namespace of its own, the ["default"] store and an
    explicit ["default"] namespace go to the root. *)
Example import_into_store_namespace :
  let w := DemoImport.two_stores in
  DemoImport.providers_at ["warehouse"] w = None
  /\ DemoImport.providers_at ["warehouse"]
       (state_of (import_model Demo.ext (MaDict Demo.model) PaNone
                    (Some "warehouse") NaNone w)) = Some 1
  /\ DemoImport.providers_at []
       (state_of (import_model Demo.ext (MaDict Demo.model) PaNone
                    (Some "default") NaNone w)) = Some 2
  /\ DemoImport.providers_at []
       (state_of (import_model Demo.ext (MaDict Demo.model) PaNone
                    (Some "warehouse") (NaName "default") w)) = Some 2
  /\ DemoImport.providers_at ["eu"; "west"]
       (state_of (import_model Demo.ext (MaDict Demo.model) PaNone
                    (Some "warehouse") (NaName "eu.west") w)) = Some 1.
Proof. repeat split; vm_compute; reflexivity. Qed.

(** ** The browser factory *)

Section Emits.

Context (P : event -> Prop).

Lemma emits_silent {A} (m : M A) :
  (forall w, trace_of (m w) = []) -> emits P m.
Proof. intros H w. rewrite H. constructor. Qed.

Lemma emits_emit e : P e -> emits P (emit e).
Proof. intros H w. cbn. repeat constructor. exact H. Qed.

Lemma emits_bind {A C} (m : M A) (k : A -> M C) :
  emits P m -> (forall a, emits P (k a)) -> emits P (bind m k).
Proof.
  intros Hm Hk w. specialize (Hm w). unfold trace_of, bind in *.
  destruct (m w) as [[[e|a] w1] t1]; cbn in *; [exact Hm|].
  specialize (Hk a w1). unfold trace_of in Hk.
  destruct (k a w1) as [[r w2] t2]. cbn in *.
  apply Forall_app. split; assumption.
Qed.

End Emits.

Lemma returns_bind {A C} (Q : C -> Prop) (m : M A) (k : A -> M C) :
  (forall a, returns Q (k a)) -> returns Q (bind m k).
Proof.
  intros Hk w c w' t H.
  apply bind_inr in H as (a & w1 & t1 & t2 & _ & H & _).
  exact (Hk a w1 c w' t2 H).
Qed.

Lemma returns_raise {A} (Q : A -> Prop) e : returns Q (raise e).
Proof. intros w a w' t H. discriminate. Qed.

Lemma returns_ret {A} (Q : A -> Prop) a : Q a -> returns Q (ret a).
Proof. intros H w a' w' t [= <- _ _]. exact H. Qed.

Ltac emits_step :=
  first
    [ apply emits_emit; reflexivity
    | apply emits_silent; intros ?; reflexivity
    | apply emits_bind; [|intros ?]
    | match goal with
      | |- emits _ (match ?x with _ => _ end) => destruct x
      end ].

Ltac returns_step :=
  first
    [ apply returns_raise
    | apply returns_bind; intros ?
    | match goal with
      | |- returns _ (match ?x with _ => _ end) => destruct x
      end ].

Lemma get_store_no_resolution X name :
  emits (fun e => resolution_event e = false) (get_store X name).
Proof.
  unfold get_store, store_concrete_extension, create_with_dict.
  repeat emits_step.
Qed.

Lemma lift_silent {A} (r : error + A) w : trace_of (lift r w) = [].
Proof. destruct r; reflexivity. Qed.

(** After the cube is resolved, [browser()] resolves nothing more. *)
Lemma browser_for_no_resolution X c locale :
  emits (fun e => resolution_event e = false) (browser_for X c locale).
Proof.
  unfold browser_for.
  repeat first [ apply get_store_no_resolution
               | apply emits_silent; apply lift_silent
               | emits_step ].
Qed.

Lemma browser_for_keeps_cubes X c locale :
  keeps _cubes (browser_for X c locale).
Proof.
  unfold browser_for.
  repeat first [ apply get_store_keeps_cubes
               | apply alloc_keeps; reflexivity
               | keeps_step ].
Qed.

(** The browser is built for the cube it was given, with the requested
    locale or, failing that, the cube's own. *)
Lemma browser_for_returns X c locale :
  returns (fun b => br_cube b = c
                    /\ br_locale b = opt_or locale (cube_locale c))
          (browser_for X c locale).
Proof.
  unfold browser_for.
  repeat returns_step.
  apply returns_ret. split; reflexivity.
Qed.

(** C10: [browser(r, locale=l, identity=i)] on a reference string resolves
    the cube exactly as [cube(r, identity=i)] does, with no locale: when
    that call fails, [browser] fails the same way in the same state; when
    it returns a cube, what follows makes no resolution call and leaves the
    cube cache alone, and the browser built is one for that cube whose
    locale is [l], or the cube's own locale when [l] is absent. *)
Theorem browser_resolves_without_locale (X : Extensions) (r : string)
  (l : option string) (i : pyval) (w : Workspace) :
  let oc := cube (PStr r) i None w in
  let ob := browser X (ByRef r) l i w in
  (forall e, result_of oc = inl e -> ob = (inl e, state_of oc, trace_of oc))
  /\ (forall c, result_of oc = inr c ->
        ob = (result_of (browser_for X c l (state_of oc)),
              state_of (browser_for X c l (state_of oc)),
              trace_of oc ++ trace_of (browser_for X c l (state_of oc)))
        /\ Forall (fun e => resolution_event e = false)
                  (trace_of (browser_for X c l (state_of oc)))
        /\ _cubes (state_of ob) = _cubes (state_of oc)
        /\ (forall b, result_of ob = inr b ->
              br_cube b = c /\ br_locale b = opt_or l (cube_locale c))).
Proof.
  intros oc ob. subst ob. unfold browser.
  destruct oc as [[[e|c] w1] t1] eqn:Hoc; subst oc; cbn [result_of fst].
  - split; [|discriminate]. intros e' [= <-].
    apply bind_fail. exact Hoc.
  - split; [discriminate|]. intros c' [= <-].
    rewrite (bind_run _ (fun c => browser_for X c l) _ _ _ _ Hoc).
    cbn [state_of trace_of fst snd].
    split; [reflexivity|].
    split; [apply browser_for_no_resolution|].
    split; [apply (browser_for_keeps_cubes X c l w1)|].
    intros b Hb. unfold result_of in Hb. cbn [fst] in Hb.
    destruct (browser_for X c l w1) as [[rb wb] tb] eqn:Hbf.
    cbn in Hb. subst rb.
    exact (browser_for_returns X c l w1 b wb tb Hbf).
Qed.

Example browser_locale_not_used_for_resolution :
  let w := Demo.populated None in
  let ob := browser Demo.ext (ByRef "sales") (Some "fr") PNone w in
  match result_of ob with
  | inr b => br_locale b = Some "fr"
  | inl _ => False
  end
  /\ is_Some (_cubes (state_of ob) !! ("sales", PNone, None))
  /\ _cubes (state_of ob) !! ("sales", PNone, Some "fr") = None.
Proof.
  repeat split; try (vm_compute; reflexivity).
  vm_compute. eauto.
Qed.

(** * Further properties of the methods *)

(** ** What a [cube()] call does to the workspace *)

(** A [cube()] call either leaves the workspace as it is, or it resolved
    the reference on a cache miss and stored the new object under the
    call's key. *)
Lemma cube_run_cases (r : string) (identity : pyval)
  (locale : option string) (w : Workspace) :
  let o := cube (PStr r) identity locale w in
  state_of o = w
  \/ (exists c n,
        _cubes w !! (r, identity, locale) = None
        /\ result_of o = inr c
        /\ state_of o
           = set_cubes (<[(r, identity, locale) := c]> (_cubes w))
               (set_next_oid n w)
        /\ next_oid w <= cube_oid c < n).
Proof.
  intros o. subst o.
  destruct (admitted w r identity) eqn:Hadm;
    [|rewrite (cube_denied _ _ _ _ Hadm); left; reflexivity].
  rewrite (cube_admitted _ _ _ _ Hadm). cbn zeta.
  destruct (_cubes w !! (r, identity, locale)) as [c0|] eqn:Hc.
  - rewrite (lookup_or_resolve_hit _ _ _ _ _ Hc). left. reflexivity.
  - rewrite (lookup_or_resolve_miss _ _ _ _ Hc).
    destruct (find_cube r (namespace w)) as [e|[[ns p] b]] eqn:Hf.
    + rewrite (resolve_cube_missing _ _ _ _ Hf). left. reflexivity.
    + destruct (resolve_cube_found r locale w ns p b Hf)
        as (c & w1 & t & Hr & _ & _ & _ & _ & Hoid & Hw1).
      rewrite Hr. right. remember (next_oid w1) as n eqn:Hn.
      exists c, n. subst w1.
      split; [reflexivity|]. split; [reflexivity|].
      split; [reflexivity | exact Hoid].
Qed.

(** A [cube()] call that raises, whatever the exception, leaves the
    workspace exactly as it found it: nothing is cached for a reference
    that was refused or could not be resolved. *)
Theorem cube_failure_changes_nothing (ref identity : pyval)
  (locale : option string) (w w' : Workspace) (e : error)
  (t : list event) :
  cube ref identity locale w = (inl e, w', t) -> w' = w.
Proof.
  intros Hrun. destruct ref as [ | z | r ];
    try (cbn in Hrun; injection Hrun as _ <- _; reflexivity).
  destruct (cube_run_cases r identity locale w) as [Hsame|Hstored].
  - rewrite Hrun in Hsame. exact Hsame.
  - destruct Hstored as (c & n & _ & Hres & _).
    rewrite Hrun in Hres. discriminate.
Qed.

Lemma cube_failure_changes_nothing_witness :
  state_of (cube (PStr "nosuch") PNone None (Demo.populated None))
  = Demo.populated None.
Proof.
  apply (cube_failure_changes_nothing (PStr "nosuch") PNone None
           (Demo.populated None) _ (NoSuchCubeError "nosuch")
           [EvCacheLookup ("nosuch", PNone, None); EvFindCube "nosuch"]).
  vm_compute. reflexivity.
Defined.

Lemma cube_touches_cache_only (r : string) (identity : pyval)
  (locale : option string) (w : Workspace) :
  let w' := state_of (cube (PStr r) identity locale w) in
  store_infos w' = store_infos w
  /\ stores w' = stores w
  /\ namespace w' = namespace w
  /\ authorizer w' = authorizer w
  /\ (forall key, key <> (r, identity, locale) ->
        _cubes w' !! key = _cubes w !! key)
  /\ (forall key c, _cubes w !! key = Some c -> _cubes w' !! key = Some c).
Proof.
  intros w'. subst w'.
  destruct (cube_run_cases r identity locale w) as [->|Hstored].
  - repeat (split; [reflexivity|]). auto.
  - destruct Hstored as (c & n & Hmiss & _ & -> & _). cbn.
    repeat (split; [reflexivity|]). split.
    + intros key Hne. apply lookup_insert_ne. congruence.
    + intros key c0 Hk.
      destruct (decide ((r, identity, locale) = key)) as [<-|Hne];
        [congruence|].
      rewrite lookup_insert_ne by exact Hne. exact Hk.
Qed.

(** A [cube()] call touches nothing but the lookup cache (and the supply of
    object ids): the store configurations, the live stores, the namespace
    tree and the authorizer stay as they are, and in the cache every entry
    under another key, and every entry that was there, is kept. *)
Theorem cube_frame (r : string) (identity : pyval)
  (locale : option string) (w : Workspace) :
  let w' := state_of (cube (PStr r) identity locale w) in
  store_infos w' = store_infos w
  /\ stores w' = stores w
  /\ namespace w' = namespace w
  /\ authorizer w' = authorizer w
  /\ (forall key, key <> (r, identity, locale) ->
        _cubes w' !! key = _cubes w !! key)
  /\ (forall key c, _cubes w !! key = Some c -> _cubes w' !! key = Some c).
Proof. exact (cube_touches_cache_only r identity locale w). Qed.

(** Cubes are cached per reference, identity and locale: after a call under
    one key, a call under another key that is not cached yet resolves
    anew and returns another object. *)
Theorem cube_keys_do_not_share (w w1 w2 : Workspace)
  (r1 r2 : string) (i1 i2 : pyval) (l1 l2 : option string)
  (c1 c2 : Cube) (t1 t2 : list event) :
  cache_consistent w ->
  (r1, i1, l1) <> (r2, i2, l2) ->
  _cubes w !! (r2, i2, l2) = None ->
  cube (PStr r1) i1 l1 w = (inr c1, w1, t1) ->
  cube (PStr r2) i2 l2 w1 = (inr c2, w2, t2) ->
  cube_oid c2 <> cube_oid c1
  /\ _cubes w2 !! (r1, i1, l1) = Some c1
  /\ _cubes w2 !! (r2, i2, l2) = Some c2.
Proof.
  intros Hinv Hne Hmiss Hrun1 Hrun2.
  destruct (cube_success _ _ _ _ _ _ _ Hinv Hrun1)
    as (_ & Hc1 & Hinv1 & _ & _ & _).
  destruct (cube_success _ _ _ _ _ _ _ Hinv1 Hrun2)
    as (_ & Hc2 & _ & _ & _ & Hfresh).
  destruct (Hinv1 _ _ Hc1) as [Hlt _].
  pose proof (cube_touches_cache_only r1 i1 l1 w) as (_ & _ & _ & _ & Hother & _).
  rewrite Hrun1 in Hother. cbn in Hother.
  assert (Hmiss1 : _cubes w1 !! (r2, i2, l2) = None)
    by (rewrite Hother by congruence; exact Hmiss).
  specialize (Hfresh Hmiss1).
  split; [lia|]. split; [|exact Hc2].
  pose proof (cube_touches_cache_only r2 i2 l2 w1) as (_ & _ & _ & _ & _ & Hkept).
  rewrite Hrun2 in Hkept. cbn in Hkept. exact (Hkept _ _ Hc1).
Qed.

Lemma cube_keys_do_not_share_witness :
  let w := Demo.populated None in
  let o1 := cube (PStr "sales") (PStr "alice") None w in
  let o2 := cube (PStr "sales") (PStr "bob") None (state_of o1) in
  exists c1 c2,
    result_of o1 = inr c1 /\ result_of o2 = inr c2
    /\ cube_oid c2 <> cube_oid c1
    /\ _cubes (state_of o2) !! ("sales", PStr "alice", None) = Some c1
    /\ _cubes (state_of o2) !! ("sales", PStr "bob", None) = Some c2.
Proof.
  intros w o1 o2.
  destruct o1 as [[[e|c1] w1] t1] eqn:Ho1; [vm_compute in Ho1; discriminate|].
  subst o2. cbn [state_of fst snd].
  destruct (cube (PStr "sales") (PStr "bob") None w1)
    as [[[e|c2] w2] t2] eqn:Ho2;
    [injection Ho1 as _ <- _; vm_compute in Ho2; discriminate|].
  exists c1, c2. split; [reflexivity|]. split; [reflexivity|].
  apply (cube_keys_do_not_share w w1 w2 "sales" "sales"
           (PStr "alice") (PStr "bob") None None c1 c2 t1 t2).
  - apply empty_cache_consistent. reflexivity.
  - discriminate.
  - reflexivity.
  - exact Ho1.
  - exact Ho2.
Defined.

(** ** Opening stores, continued *)

Lemma get_store_run_cases X (name : option string) (w : Workspace) :
  let n := str_or name "default" in
  let o := get_store X name w in
  (state_of o = w
   /\ (forall s, result_of o = inr s -> stores w !! n = Some s))
  \/ (exists s type_,
        stores w !! n = None
        /\ store_infos w !! n = Some (type_, store_options s)
        /\ result_of o = inr s
        /\ store_oid s = next_oid w
        /\ state_of o
           = set_stores (<[n := s]> (stores w))
               (set_next_oid (S (next_oid w)) w)).
Proof.
  intros n o. subst o.
  unfold get_store, store_concrete_extension, create_with_dict. run.
  fold n. destruct (stores w !! n) as [s|] eqn:Hs.
  - left. split; [reflexivity|]. cbn. intros s' [= <-]. reflexivity.
  - destruct (store_infos w !! n) as [[type_ options]|] eqn:Hi;
      [|left; split; [reflexivity | discriminate]].
    cbn. destruct (store_extension X type_) as [cls|];
      [|left; split; [reflexivity | discriminate]].
    cbn. destruct (sc_accepts cls options);
      [|left; split; [reflexivity | discriminate]].
    right. cbn.
    exists {| store_oid := next_oid w;
              extension_name := sc_extension_name cls;
              default_browser_name := sc_default_browser_name cls;
              store_options := options |}, type_.
    repeat split.
Qed.

(** A [get_store] call that raises leaves the workspace exactly as it found
    it: no store is cached for a name that is unknown, whose type does not
    resolve, or whose configuration the store class refuses. *)
Theorem get_store_failure_changes_nothing (X : Extensions)
  (name : option string) (w w' : Workspace) (e : error) (t : list event) :
  get_store X name w = (inl e, w', t) -> w' = w.
Proof.
  intros Hrun.
  destruct (get_store_run_cases X name w) as [[Hsame _]|Hnew].
  - rewrite Hrun in Hsame. exact Hsame.
  - destruct Hnew as (s & type_ & _ & _ & Hres & _).
    rewrite Hrun in Hres. discriminate.
Qed.

Lemma get_store_failure_changes_nothing_witness :
  state_of (get_store Demo.ext (Some "warehouse") (Demo.populated None))
  = Demo.populated None.
Proof.
  apply (get_store_failure_changes_nothing Demo.ext (Some "warehouse")
           (Demo.populated None) _
           (ConfigurationError (UnknownStore "warehouse")) []).
  vm_compute. reflexivity.
Defined.

(** The store a [get_store] call returns is the one cached under the name
    afterwards; the call replaces no live store, and leaves the store
    configurations, the namespace tree and the cube cache alone. *)
Theorem get_store_only_adds (X : Extensions) (name : option string)
  (w w' : Workspace) (s : Store) (t : list event) :
  get_store X name w = (inr s, w', t) ->
  stores w' !! str_or name "default" = Some s
  /\ (forall n' s', stores w !! n' = Some s' -> stores w' !! n' = Some s')
  /\ store_infos w' = store_infos w
  /\ namespace w' = namespace w
  /\ _cubes w' = _cubes w.
Proof.
  intros Hrun.
  destruct (get_store_run_cases X name w) as [[Hsame Hres]|Hnew];
    rewrite Hrun in *; cbn in *.
  - subst w'. repeat split; auto.
  - destruct Hnew as (s0 & type_ & Hnone & _ & [= <-] & _ & ->). cbn.
    split; [apply lookup_insert_eq|]. repeat split.
    intros n' s' Hs'.
    destruct (decide (str_or name "default" = n')) as [<-|Hne];
      [congruence|].
    rewrite lookup_insert_ne by exact Hne. exact Hs'.
Qed.

Lemma get_store_only_adds_witness :
  let w := Demo.populated None in
  let o := get_store Demo.ext None
             (set_stores ∅ w) in
  exists s,
    result_of o = inr s
    /\ stores (state_of o) !! "default" = Some s
    /\ store_infos (state_of o) = store_infos w.
Proof.
  intros w o.
  destruct o as [[[e|s] w'] t] eqn:Ho; [vm_compute in Ho; discriminate|].
  exists s. split; [reflexivity|].
  destruct (get_store_only_adds Demo.ext None (set_stores ∅ w) w' s t Ho)
    as (Hc & _ & Hi & _).
  split; [exact Hc | exact Hi].
Defined.

(** ** Live stores and their registered configuration *)

Section Preserves.

Context (I : Workspace -> Prop).

Lemma preserves_still {A} (m : M A) :
  (forall w, state_of (m w) = w) -> preserves I m.
Proof. intros H w Hw. rewrite H. exact Hw. Qed.

Lemma preserves_modify (g : Workspace -> Workspace) :
  (forall w, I w -> I (g w)) -> preserves I (modify g).
Proof. intros H w Hw. apply H. exact Hw. Qed.

Lemma preserves_bind {A C} (m : M A) (k : A -> M C) :
  preserves I m -> (forall a, preserves I (k a)) -> preserves I (bind m k).
Proof.
  intros Hm Hk w Hw. specialize (Hm w Hw). unfold state_of, bind in *.
  destruct (m w) as [[[e|a] w1] t1]; cbn in *; [exact Hm|].
  specialize (Hk a w1 Hm). unfold state_of in Hk.
  destruct (k a w1) as [[r w2] t2]. exact Hk.
Qed.

End Preserves.

Lemma lift_still {A} (r : error + A) w : state_of (lift r w) = w.
Proof. destruct r; reflexivity. Qed.

Ltac preserves_step :=
  first
    [ apply preserves_still; intros ?; reflexivity
    | apply preserves_still; apply lift_still
    | apply preserves_modify; intros ? ?; assumption
    | apply preserves_bind; [|intros ?]
    | match goal with
      | |- preserves _ (match ?x with _ => _ end) => destruct x
      end ].

Lemma get_store_keeps_match X name : preserves stores_match (get_store X name).
Proof.
  intros w Hw.
  destruct (get_store_run_cases X name w) as [[-> _]|Hnew]; [exact Hw|].
  destruct Hnew as (s & type_ & Hnone & Hinfo & _ & _ & ->).
  intros n' s'. cbn.
  destruct (decide (str_or name "default" = n')) as [<-|Hne].
  - rewrite lookup_insert_eq. intros [= <-]. eauto.
  - rewrite lookup_insert_ne by exact Hne. apply Hw.
Qed.

Lemma alloc_keeps_match : preserves stores_match alloc.
Proof. intros w Hw. exact Hw. Qed.

Lemma import_model_keeps_match X model provider store ns :
  preserves stores_match (import_model X model provider store ns).
Proof.
  unfold import_model, bind_store, model_metadata, model_provider,
    make_provider, target_namespace, register_provider.
  repeat first [ apply get_store_keeps_match | preserves_step ].
  all: apply preserves_modify; intros w Hw;
    destruct (ns_get _ _); exact Hw.
Qed.

Lemma import_store_model_keeps_match X name model provider nsname :
  preserves stores_match (import_store_model X name model provider nsname).
Proof.
  unfold import_store_model.
  destruct (from_option cval_truthy false model);
    [apply import_model_keeps_match|].
  destruct (provider_arg_truthy provider);
    [apply import_model_keeps_match|].
  apply preserves_still. reflexivity.
Qed.

(** Recording a configuration under a name that has no live store keeps
    the live stores in line with their configurations. *)
Lemma record_keeps_match w name type_ config :
  stores_match w -> stores w !! name = None ->
  stores_match
    (set_store_infos (<[name := (type_, config)]> (store_infos w)) w).
Proof.
  intros Hw Hnone n s. cbn. intros Hs.
  destruct (decide (name = n)) as [<-|Hne]; [congruence|].
  rewrite lookup_insert_ne by exact Hne. exact (Hw n s Hs).
Qed.

Lemma unregistered_not_live w name :
  stores_match w -> store_infos w !! name = None -> stores w !! name = None.
Proof.
  intros Hw Hfree. destruct (stores w !! name) as [s|] eqn:Hs; [|reflexivity].
  destruct (Hw name s Hs) as [type_ Hi]. congruence.
Qed.

Lemma register_store_keeps_match X name type_ include_model config :
  preserves stores_match (register_store X name type_ include_model config).
Proof.
  intros w Hw.
  destruct (store_infos w !! name) as [x|] eqn:Hfree.
  { rewrite (register_store_duplicate X name type_ include_model config w);
      [exact Hw | eauto]. }
  pose proof (unregistered_not_live w name Hw Hfree) as Hnone.
  destruct (store_extension X type_) as [cls|] eqn:Hext.
  - unfold register_store, record_store, store_concrete_extension. run.
    rewrite Hfree. cbn. rewrite Hext. cbn.
    fold (without_model include_model config).
    fold (registered_config include_model config).
    match goal with
    | |- context [import_store_model X ?a ?b ?c ?d ?w3] =>
        pose proof (import_store_model_keeps_match X a b c d w3) as Hk;
        unfold state_of in Hk;
        destruct (import_store_model X a b c d w3) as [[r w4] t4]
    end.
    cbn in *. apply Hk. rewrite !insert_insert_eq.
    apply (record_keeps_match w name type_ _ Hw Hnone).
  - rewrite (register_store_unknown_type X _ _ _ _ _ Hfree Hext). cbn.
    apply (record_keeps_match w name type_ _ Hw Hnone).
Qed.

Lemma browser_for_keeps_match X c locale :
  preserves stores_match (browser_for X c locale).
Proof.
  unfold browser_for.
  repeat first [ apply get_store_keeps_match | apply alloc_keeps_match
               | preserves_step ].
Qed.

Lemma cube_keeps_match ref identity locale :
  preserves stores_match (cube ref identity locale).
Proof.
  intros w Hw. destruct ref as [ | z | r ]; try exact Hw.
  pose proof (cube_touches_cache_only r identity locale w)
    as (Hi & Hs & _).
  intros n s. rewrite Hi, Hs. apply Hw.
Qed.

(** Every live store of the workspace was built from the configuration
    registered under its name.  This holds when the workspace is made, and
    no method breaks it: not [register_store], which records a
    configuration only under a name without a live store, nor [get_store],
    [import_model], [cube], [browser] or [flush_lookup_cache]. *)
Theorem stores_match_invariant (X : Extensions) :
  (forall auth, stores_match (new_workspace auth))
  /\ (forall name type_ include_model config,
        preserves stores_match
                  (register_store X name type_ include_model config))
  /\ (forall name, preserves stores_match (get_store X name))
  /\ (forall model provider store ns,
        preserves stores_match (import_model X model provider store ns))
  /\ (forall ref identity locale,
        preserves stores_match (cube ref identity locale))
  /\ (forall c locale identity,
        preserves stores_match (browser X c locale identity))
  /\ preserves stores_match flush_lookup_cache.
Proof.
  split; [intros auth n s H; cbn in H; rewrite lookup_empty in H;
          discriminate|].
  split; [intros; apply register_store_keeps_match|].
  split; [intros; apply get_store_keeps_match|].
  split; [intros; apply import_model_keeps_match|].
  split; [intros; apply cube_keeps_match|].
  split; [|intros w Hw; exact Hw].
  intros c locale identity. unfold browser.
  apply preserves_bind; [|intros c'; apply browser_for_keeps_match].
  destruct c as [r|c0]; [apply cube_keeps_match|].
  apply preserves_still. reflexivity.
Qed.

Lemma str_or_truthy name d :
  str_truthy name = true -> str_or (Some name) d = name.
Proof. intros H. cbn. rewrite H. reflexivity. Qed.

(** Registration and opening compose: once [register_store] has recorded
    a store under a fresh, non-empty name with a type that resolves,
    [get_store] of that name returns a live store configured with the
    registered configuration less the ["model"], ["model_provider"] and
    ["namespace"] keys -- whether [register_store] opened it already for
    the model it imported or [get_store] opens it now, and however the
    import ended. *)
Theorem register_then_get_store (X : Extensions) (name type_ : string)
  (include_model : bool) (config : gmap string cval) (cls : StoreClass)
  (w : Workspace) :
  stores_match w ->
  store_infos w !! name = None ->
  str_truthy name = true ->
  store_extension X type_ = Some cls ->
  sc_accepts cls (registered_config include_model config) = true ->
  let w1 := state_of (register_store X name type_ include_model config w) in
  exists s,
    result_of (get_store X (Some name) w1) = inr s
    /\ store_options s = registered_config include_model config
    /\ stores (state_of (get_store X (Some name) w1)) !! name = Some s.
Proof.
  intros Hw Hfree Hname Hext Hacc w1.
  pose proof (register_store_infos_known X name type_ include_model config
                w cls Hfree Hext) as Hinfos.
  pose proof (register_store_keeps_match X name type_ include_model config
                w Hw) as Hw1.
  fold w1 in Hinfos, Hw1.
  assert (Hinfo : store_infos w1 !! name
                  = Some (type_, registered_config include_model config))
    by (rewrite Hinfos; apply lookup_insert_eq).
  destruct (stores w1 !! name) as [s|] eqn:Hs.
  - exists s. destruct (Hw1 name s Hs) as [ty Hi].
    rewrite (get_store_cached X (Some name) w1 s)
      by (rewrite str_or_truthy by exact Hname; exact Hs).
    cbn. split; [reflexivity|]. split; [congruence | exact Hs].
  - eexists.
    rewrite (get_store_opens X (Some name) w1 type_
               (registered_config include_model config) cls);
      rewrite ?str_or_truthy by exact Hname; try assumption.
    cbn. split; [reflexivity|]. split; [reflexivity|].
    apply lookup_insert_eq.
Qed.

Lemma register_then_get_store_witness :
  let config : gmap string cval :=
    {[ "url" := CStr "sqlite:///data.sqlite"; "model" := CModel Demo.model ]} in
  let w1 := state_of (register_store Demo.ext "warehouse" "sql" true config
                        (new_workspace None)) in
  exists s,
    result_of (get_store Demo.ext (Some "warehouse") w1) = inr s
    /\ store_options s = registered_config true config
    /\ stores (state_of (get_store Demo.ext (Some "warehouse") w1))
         !! "warehouse" = Some s.
Proof.
  intros config.
  apply (register_then_get_store Demo.ext "warehouse" "sql" true config
           Demo.sql_store (new_workspace None)).
  - intros n s H. cbn in H. rewrite lookup_empty in H. discriminate.
  - reflexivity.
  - reflexivity.
  - reflexivity.
  - reflexivity.
Defined.

(** ** Importing models, continued *)

Lemma bind_inl {A B} (m : M A) (k : A -> M B) w e w' t :
  bind m k w = (inl e, w', t) ->
  (exists t1, m w = (inl e, w', t1))
  \/ (exists a w1 t1 t2, m w = (inr a, w1, t1) /\ k a w1 = (inl e, w', t2)).
Proof.
  unfold bind. destruct (m w) as [[[e1|a] w1] t1].
  - intros [= <- <- <-]. left. eauto.
  - destruct (k a w1) as [[r w2] t2] eqn:Hk. intros [= -> -> <-].
    right. exists a, w1, t1, t2. auto.
Qed.

Lemma get_store_keeps X name {B} (f : Workspace -> B) :
  (forall v w, f (set_stores v w) = f w) ->
  (forall n w, f (set_next_oid n w) = f w) ->
  keeps f (get_store X name).
Proof.
  intros Hs Hn w.
  destruct (get_store_run_cases X name w) as [[-> _]|Hnew]; [reflexivity|].
  destruct Hnew as (s & type_ & _ & _ & _ & _ & ->).
  rewrite Hs, Hn. reflexivity.
Qed.

Lemma bind_store_keeps X po store {B} (f : Workspace -> B) :
  (forall v w, f (set_stores v w) = f w) ->
  (forall n w, f (set_next_oid n w) = f w) ->
  keeps f (bind_store X po store).
Proof.
  intros Hs Hn. unfold bind_store.
  repeat first [ apply (get_store_keeps X _ f Hs Hn) | keeps_step ].
Qed.

Lemma target_namespace_failure ns store w e w' t :
  target_namespace ns store w = (inl e, w', t) -> w' = w.
Proof.
  unfold target_namespace.
  destruct ns as [ | name | r | [|] ];
    repeat match goal with
           | |- context [if ?b then _ else _] => destruct b
           end;
    run; intros [= _ <- _]; reflexivity.
Qed.

(** Only a value that is no provider leaves [import_model] without a
    provider object. *)
Lemma model_provider_none X provider md w w1 t :
  model_provider X provider md w = (inr None, w1, t) ->
  provider = PaOther true.
Proof.
  unfold model_provider, make_provider.
  destruct provider as [ | name | p | [|] ]; run; try discriminate;
    try reflexivity;
    destruct (provider_extension X _); discriminate.
Qed.

Lemma bind_store_none X po store w w1 t :
  bind_store X po store w = (inr None, w1, t) -> po = None.
Proof.
  unfold bind_store.
  destruct (opt_truthy store || from_option prov_requires_store false po).
  - intros H. apply bind_inr in H as (s & ws & ts & t2 & _ & H & _).
    destruct po; [revert H; run; discriminate | reflexivity].
  - run. intros [= -> _ _]. reflexivity.
Qed.

Lemma register_provider_returns r p w :
  result_of (register_provider r p w) = inr tt.
Proof. reflexivity. Qed.

Lemma import_model_failure_keeps_tree X model provider store ns w w' e t :
  provider <> PaOther true ->
  import_model X model provider store ns w = (inl e, w', t) ->
  namespace w' = namespace w.
Proof.
  intros Hprov Hrun. unfold import_model in Hrun.
  apply bind_inl in Hrun as [[t1 Hmd]|(md & wa & ta & t2 & Hmd & Hrun)].
  { pose proof (model_metadata_state X model w) as H.
    rewrite Hmd in H. cbn in H. subst w'. reflexivity. }
  pose proof (model_metadata_state X model w) as Hwa.
  rewrite Hmd in Hwa. cbn in Hwa. subst wa.
  apply bind_inl in Hrun as [[t1 Hpo]|(po & wb & tb & t3 & Hpo & Hrun)].
  { pose proof (model_provider_state X provider md w) as H.
    rewrite Hpo in H. cbn in H. subst w'. reflexivity. }
  pose proof (model_provider_state X provider md w) as Hwb.
  rewrite Hpo in Hwb. cbn in Hwb. subst wb.
  pose proof (bind_store_keeps X po (opt_or store (md_store md)) namespace
                (fun _ _ => eq_refl) (fun _ _ => eq_refl) w) as Hbs.
  apply bind_inl in Hrun as [[t1 Hb]|(pb & wc & tc & t4 & Hb & Hrun)].
  { rewrite Hb in Hbs. exact Hbs. }
  rewrite Hb in Hbs. cbn in Hbs.
  apply bind_inl in Hrun as [[t1 Ht]|(r & wd & td & t5 & Ht & Hrun)].
  { apply target_namespace_failure in Ht. subst w'. exact Hbs. }
  destruct pb as [p|].
  - pose proof (register_provider_returns r p wd) as H.
    rewrite Hrun in H. discriminate.
  - apply bind_store_none in Hb. subst po.
    apply model_provider_none in Hpo. contradiction.
Qed.

(** No partial registration: when [import_model] raises -- the model is of
    no known kind or cannot be read, the provider type or the store is
    unknown, the store cannot be opened -- the namespace tree is as it was
    before the call: no namespace was created for the model and no provider
    added.  (The [provider] argument is a name, a provider object or
    nothing.) *)
Theorem import_model_failure_registers_nothing (X : Extensions)
  (model : model_arg) (provider : provider_arg) (store : option string)
  (ns : namespace_arg) (w w' : Workspace) (e : error) (t : list event) :
  provider <> PaOther true ->
  import_model X model provider store ns w = (inl e, w', t) ->
  namespace w' = namespace w
  /\ store_infos w' = store_infos w.
Proof.
  intros Hprov Hrun.
  split; [exact (import_model_failure_keeps_tree _ _ _ _ _ _ _ _ _
                   Hprov Hrun)|].
  pose proof (import_model_keeps_infos X model provider store ns w) as H.
  rewrite Hrun in H. exact H.
Qed.

Lemma import_model_failure_registers_nothing_witness :
  let w := Demo.populated None in
  let o := import_model Demo.ext (MaDict Demo.model) PaNone
             (Some "warehouse") NaNone w in
  result_of o = inl (ConfigurationError (UnknownStore "warehouse"))
  /\ namespace (state_of o) = namespace w
  /\ store_infos (state_of o) = store_infos w.
Proof.
  intros w o.
  destruct o as [[r w'] t] eqn:Ho.
  assert (Hr : r = inl (ConfigurationError (UnknownStore "warehouse")))
    by (apply (f_equal result_of) in Ho; vm_compute in Ho; congruence).
  subst r. split; [reflexivity|].
  apply (import_model_failure_registers_nothing Demo.ext (MaDict Demo.model)
           PaNone (Some "warehouse") NaNone w w'
           (ConfigurationError (UnknownStore "warehouse")) t);
    [discriminate | exact Ho].
Defined.

(** An unknown provider type -- named by the caller, or by the metadata, or
    the default ["static"] -- makes [import_model] fail with
    [ConfigurationError] before anything is touched: the workspace is left
    exactly as it was, and no store was opened. *)
Theorem import_model_unknown_provider (X : Extensions) (model : model_arg)
  (md : Metadata) (tm : list event) (provider : provider_arg)
  (name : string) (store : option string) (ns : namespace_arg)
  (w : Workspace) :
  model_metadata X model w = (inr md, w, tm) ->
  provider = PaName name
  \/ (provider = PaNone /\ default "static" (md_provider md) = name) ->
  provider_extension X name = None ->
  import_model X model provider store ns w
  = (inl (ConfigurationError (UnknownExtension "provider" name)), w,
     tm ++ [EvProviderExtension name]).
Proof.
  intros Hmd Hprov Hext. unfold import_model.
  rewrite (bind_run _ _ _ _ _ _ Hmd). cbn [fst snd].
  assert (Hfail : model_provider X provider md w
                  = (inl (ConfigurationError
                            (UnknownExtension "provider" name)), w,
                     [EvProviderExtension name])).
  { unfold model_provider, make_provider.
    destruct Hprov as [->|[-> Hn]]; [|rewrite Hn]; run; rewrite Hext;
      reflexivity. }
  rewrite (bind_fail _ _ _ _ _ _ Hfail). reflexivity.
Qed.

Lemma import_model_unknown_provider_witness :
  let w := Demo.populated None in
  import_model Demo.ext (MaDict Demo.model) (PaName "mixpanel")
    (Some "default") NaNone w
  = (inl (ConfigurationError (UnknownExtension "provider" "mixpanel")), w,
     [] ++ [EvProviderExtension "mixpanel"]).
Proof.
  intros w.
  apply (import_model_unknown_provider Demo.ext (MaDict Demo.model)
           Demo.model [] (PaName "mixpanel") "mixpanel" (Some "default")
           NaNone w).
  - reflexivity.
  - left. reflexivity.
  - reflexivity.
Defined.

(** ** What does not flush the lookup cache *)

Lemma cube_hit r identity locale w c :
  _cubes w !! (r, identity, locale) = Some c ->
  admitted w r identity = true ->
  cube (PStr r) identity locale w
  = (inr c, w,
     auth_trace w r identity ++ [EvCacheLookup (r, identity, locale)]).
Proof.
  intros Hc Hadm. rewrite (cube_admitted _ _ _ _ Hadm).
  rewrite (lookup_or_resolve_hit _ _ _ _ _ Hc). reflexivity.
Qed.

Lemma cube_hit_elsewhere r identity locale w w1 c :
  _cubes w1 = _cubes w -> authorizer w1 = authorizer w ->
  _cubes w !! (r, identity, locale) = Some c ->
  admitted w r identity = true ->
  cube (PStr r) identity locale w1
  = (inr c, w1,
     auth_trace w r identity ++ [EvCacheLookup (r, identity, locale)]).
Proof.
  intros Hcubes Hauth Hc Hadm.
  rewrite (cube_hit r identity locale w1 c).
  - unfold auth_trace. rewrite Hauth. reflexivity.
  - rewrite Hcubes. exact Hc.
  - unfold admitted in *. rewrite Hauth. exact Hadm.
Qed.

Lemma import_model_keeps X model provider store ns {B}
  (f : Workspace -> B) :
  (forall v w, f (set_stores v w) = f w) ->
  (forall n w, f (set_next_oid n w) = f w) ->
  (forall v w, f (set_namespace v w) = f w) ->
  keeps f (import_model X model provider store ns).
Proof.
  intros Hs Hn Ht.
  unfold import_model, model_metadata, model_provider, make_provider,
    target_namespace, register_provider.
  repeat first [ apply (bind_store_keeps X _ _ f Hs Hn)
               | apply keeps_modify; intros w; apply Ht
               | keeps_step ].
  all: apply keeps_modify; intros w; destruct (ns_get _ _);
    [apply Ht | reflexivity].
Qed.

(** [import_model] does not flush the lookup cache: a cube that was cached
    before the import is the object [cube()] returns after it, whatever the
    imported model declares and however the import ended. *)
Theorem import_model_keeps_cached_cubes (X : Extensions)
  (model : model_arg) (provider : provider_arg) (store : option string)
  (ns : namespace_arg) (w : Workspace) (r : string) (identity : pyval)
  (locale : option string) (c : Cube) :
  _cubes w !! (r, identity, locale) = Some c ->
  admitted w r identity = true ->
  let w1 := state_of (import_model X model provider store ns w) in
  _cubes w1 = _cubes w
  /\ cube (PStr r) identity locale w1
     = (inr c, w1,
        auth_trace w r identity ++ [EvCacheLookup (r, identity, locale)]).
Proof.
  intros Hc Hadm w1.
  assert (Hcubes : _cubes w1 = _cubes w)
    by (apply (import_model_keeps X model provider store ns _cubes);
        reflexivity).
  split; [exact Hcubes|].
  apply cube_hit_elsewhere; try assumption.
  apply (import_model_keeps X model provider store ns authorizer);
    reflexivity.
Qed.

Lemma import_model_keeps_cached_cubes_witness :
  let w := state_of (cube (PStr "sales") PNone None (Demo.populated None)) in
  exists c,
    _cubes w !! ("sales", PNone, None) = Some c
    /\ let w1 := state_of (import_model Demo.ext (MaDict Demo.model) PaNone
                             (Some "default") NaNone w) in
       _cubes w1 = _cubes w
       /\ cube (PStr "sales") PNone None w1
          = (inr c, w1,
             auth_trace w "sales" PNone
               ++ [EvCacheLookup ("sales", PNone, None)]).
Proof.
  intros w.
  destruct (_cubes w !! ("sales", PNone, None)) as [c|] eqn:Hc;
    [|vm_compute in Hc; discriminate].
  exists c. split; [reflexivity|].
  apply (import_model_keeps_cached_cubes Demo.ext (MaDict Demo.model) PaNone
           (Some "default") NaNone w "sales" PNone None c Hc).
  reflexivity.
Defined.

(** ** Translations *)

Lemma add_translation_root (locale : string) (trans : Translation) w :
  add_translation locale trans (Some "default") w
  = (inr tt,
     set_namespace (ns_add_translation locale trans (namespace w)) w, []).
Proof. reflexivity. Qed.

Lemma ns_get_add_translation locale trans (t : Namespace) (path : ns_ref) :
  ns_providers <$> ns_get path (ns_add_translation locale trans t)
  = ns_providers <$> ns_get path t.
Proof. destruct path; reflexivity. Qed.

Lemma find_upwards_add_translation locale trans t basename rpath :
  find_upwards (ns_add_translation locale trans t) basename rpath
  = find_upwards t basename rpath.
Proof.
  induction rpath as [ | seg up IH ]; cbn [find_upwards].
  - reflexivity.
  - rewrite IH.
    pose proof (ns_get_add_translation locale trans t (rev (seg :: up)))
      as Hp.
    destruct (ns_get (rev (seg :: up)) (ns_add_translation locale trans t))
      as [n'|];
      destruct (ns_get (rev (seg :: up)) t) as [n|]; cbn in Hp;
      try discriminate; [|reflexivity].
    injection Hp as ->. reflexivity.
Qed.

Lemma find_cube_add_translation locale trans t ref :
  find_cube ref (ns_add_translation locale trans t) = find_cube ref t.
Proof.
  unfold find_cube. destruct (rev (split_dots "" ref)); [reflexivity|].
  rewrite find_upwards_add_translation. reflexivity.
Qed.

(** The label of a freshly resolved cube: the nearest translation's label
    for the reference when there is one, else the provider's. *)
Lemma resolve_cube_label ref locale w ns p basename d :
  find_cube ref (namespace w) = inr (ns, p, basename) ->
  provider_decl p basename = Some d ->
  exists c w' t,
    resolve_cube ref locale w = (inr c, w', t)
    /\ cube_name c = ref
    /\ cube_label c
       = match translation_lookup (namespace w) ns locale with
         | [] => cd_label d
         | tr :: _ => match tr !! ref with
                      | Some l => Some l
                      | None => cd_label d
                      end
         end.
Proof.
  intros Hf Hd.
  unfold resolve_cube, provider_cube, localized. run. rewrite Hf. run.
  rewrite Hd. run.
  destruct (translation_lookup (namespace w) ns locale) as [ | tr trs ];
    run; do 3 eexists; (split; [reflexivity|]); cbn; split; reflexivity.
Qed.

Lemma cube_miss_resolves r identity locale w c w1 t :
  admitted w r identity = true ->
  _cubes w !! (r, identity, locale) = None ->
  resolve_cube r locale w = (inr c, w1, t) ->
  result_of (cube (PStr r) identity locale w) = inr c.
Proof.
  intros Hadm Hmiss Hr. rewrite (cube_admitted _ _ _ _ Hadm).
  rewrite (lookup_or_resolve_miss _ _ _ _ Hmiss), Hr. reflexivity.
Qed.

(** Localization through the workspace: after [add_translation(locale,
    trans)] on the default namespace, a cube of the root namespace that is
    resolved for that locale carries the label the translation has for its
    reference; resolved for a locale the root has no translation for, it
    carries the label its provider declares. *)
Theorem add_translation_localizes (w : Workspace) (locale : string)
  (trans : Translation) (r basename label : string) (identity : pyval)
  (p : Provider) (d : CubeDecl) :
  find_cube r (namespace w) = inr ([], p, basename) ->
  provider_decl p basename = Some d ->
  admitted w r identity = true ->
  trans !! r = Some label ->
  let w1 := state_of (add_translation locale trans (Some "default") w) in
  (_cubes w !! (r, identity, Some locale) = None ->
   exists c, result_of (cube (PStr r) identity (Some locale) w1) = inr c
             /\ cube_name c = r /\ cube_label c = Some label)
  /\ (forall other,
        other <> locale ->
        ns_translations (namespace w) !! other = None ->
        _cubes w !! (r, identity, Some other) = None ->
        exists c, result_of (cube (PStr r) identity (Some other) w1) = inr c
                  /\ cube_name c = r /\ cube_label c = cd_label d).
Proof.
  intros Hf Hd Hadm Htr w1. subst w1. rewrite add_translation_root.
  cbn [state_of fst snd].
  set (w1 := set_namespace _ w).
  assert (Hf1 : find_cube r (namespace w1) = inr ([], p, basename))
    by (cbn; rewrite find_cube_add_translation; exact Hf).
  assert (Hadm1 : admitted w1 r identity = true) by exact Hadm.
  split.
  - intros Hmiss.
    destruct (resolve_cube_label r (Some locale) w1 [] p basename d Hf1 Hd)
      as (c & w2 & t & Hr & Hname & Hlabel).
    exists c.
    split; [exact (cube_miss_resolves _ _ _ _ _ _ _ Hadm1 Hmiss Hr)|].
    split; [exact Hname|]. rewrite Hlabel. cbn.
    rewrite lookup_insert_eq, Htr. reflexivity.
  - intros other Hne Hnone Hmiss.
    destruct (resolve_cube_label r (Some other) w1 [] p basename d Hf1 Hd)
      as (c & w2 & t & Hr & Hname & Hlabel).
    exists c.
    split; [exact (cube_miss_resolves _ _ _ _ _ _ _ Hadm1 Hmiss Hr)|].
    split; [exact Hname|]. rewrite Hlabel. cbn.
    rewrite lookup_insert_ne by exact (not_eq_sym Hne).
    rewrite Hnone. reflexivity.
Qed.

Lemma add_translation_localizes_witness :
  let w := Demo.populated None in
  let w1 := state_of (add_translation "fr" DemoLocale.french
                        (Some "default") w) in
  exists p,
    find_cube "sales" (namespace w) = inr ([], p, "sales")
    /\ (_cubes w !! ("sales", PNone, Some "fr") = None ->
        exists c, result_of (cube (PStr "sales") PNone (Some "fr") w1) = inr c
                  /\ cube_name c = "sales" /\ cube_label c = Some "Ventes")
    /\ (forall other,
          other <> "fr" ->
          ns_translations (namespace w) !! other = None ->
          _cubes w !! ("sales", PNone, Some other) = None ->
          exists c,
            result_of (cube (PStr "sales") PNone (Some other) w1) = inr c
            /\ cube_name c = "sales"
            /\ cube_label c = cd_label Demo.sales_decl).
Proof.
  intros w.
  destruct (find_cube "sales" (namespace w)) as [e|[[ns p] b]] eqn:Hf;
    [vm_compute in Hf; discriminate|].
  assert (Hns : ns = [] /\ b = "sales"
                /\ provider_decl p "sales" = Some Demo.sales_decl).
  { vm_compute in Hf. injection Hf as <- <- <-. repeat split. }
  destruct Hns as (-> & -> & Hd).
  exists p. split; [reflexivity|].
  apply (add_translation_localizes w "fr" DemoLocale.french "sales" "sales"
           "Ventes" PNone p Demo.sales_decl Hf Hd); reflexivity.
Defined.

Lemma add_translation_keeps locale trans ns {B} (f : Workspace -> B) :
  (forall v w, f (set_namespace v w) = f w) ->
  keeps f (add_translation locale trans ns).
Proof.
  intros Ht. unfold add_translation, _get_namespace.
  repeat first [ apply keeps_modify; intros w; apply Ht | keeps_step ].
Qed.

(** [add_translation] does not flush the lookup cache either: a cube cached
    for a locale before a translation for that locale is added is returned
    as it is, untranslated, until the cache is flushed. *)
Theorem add_translation_keeps_cached_cubes (locale : string)
  (trans : Translation) (ns : option string)
  (w : Workspace) (r : string) (identity : pyval) (c : Cube) :
  _cubes w !! (r, identity, Some locale) = Some c ->
  admitted w r identity = true ->
  let w1 := state_of (add_translation locale trans ns w) in
  cube (PStr r) identity (Some locale) w1
  = (inr c, w1,
     auth_trace w r identity ++ [EvCacheLookup (r, identity, Some locale)]).
Proof.
  intros Hc Hadm w1.
  apply cube_hit_elsewhere; try assumption.
  - apply (add_translation_keeps locale trans ns _cubes). reflexivity.
  - apply (add_translation_keeps locale trans ns authorizer). reflexivity.
Qed.

Lemma add_translation_keeps_cached_cubes_witness :
  let w := state_of (cube (PStr "sales") PNone (Some "fr")
                       (Demo.populated None)) in
  let w1 := state_of (add_translation "fr" DemoLocale.french
                        (Some "default") w) in
  exists c,
    cube (PStr "sales") PNone (Some "fr") w1
    = (inr c, w1,
       auth_trace w "sales" PNone
         ++ [EvCacheLookup ("sales", PNone, Some "fr")])
    /\ cube_label c = Some "Sales".
Proof.
  intros w.
  destruct (_cubes w !! ("sales", PNone, Some "fr")) as [c|] eqn:Hc;
    [|vm_compute in Hc; discriminate].
  exists c. split.
  - apply (add_translation_keeps_cached_cubes "fr"
             DemoLocale.french (Some "default") w "sales" PNone c Hc).
    reflexivity.
  - vm_compute in Hc. injection Hc as <-. reflexivity.
Defined.

(** ** Listing cubes, continued *)

Lemma find_snoc {A} (f : A -> bool) (l : list A) (x : A) :
  List.find f (l ++ [x])
  = match List.find f l with
    | Some y => Some y
    | None => if f x then Some x else None
    end.
Proof.
  induction l as [ | a l IH ]; cbn; [reflexivity|].
  destruct (f a); [reflexivity | exact IH].
Qed.

Lemma by_name_acc_find (l : list CubeDescriptor)
  (m : gmap string CubeDescriptor) (n : string) :
  foldl (fun m d => <[desc_name d := d]> m) m l !! n
  = match List.find (fun d => String.eqb (desc_name d) n) (rev l) with
    | Some d => Some d
    | None => m !! n
    end.
Proof.
  revert m. induction l as [ | x l IH ]; intros m; cbn; [reflexivity|].
  rewrite IH, find_snoc.
  destruct (List.find _ (rev l)); [reflexivity|].
  destruct (String.eqb (desc_name x) n) eqn:Hx.
  - apply String.eqb_eq in Hx as <-. apply lookup_insert_eq.
  - apply String.eqb_neq in Hx. apply lookup_insert_ne. exact Hx.
Qed.

(** The dictionary [list_cubes] builds maps a name to the descriptor that
    was declared last under it. *)
Lemma by_name_last all_cubes n :
  by_name all_cubes !! n
  = List.find (fun d => String.eqb (desc_name d) n) (rev all_cubes).
Proof.
  unfold by_name. rewrite by_name_acc_find, lookup_empty.
  destruct (List.find _ _); reflexivity.
Qed.

Lemma pick_lookups (m : gmap string CubeDescriptor) names ds :
  pick m names = Some ds -> map Some ds = map (fun n => m !! n) names.
Proof.
  revert ds. induction names as [ | n names IH ]; intros ds; cbn.
  - intros [= <-]. reflexivity.
  - destruct (m !! n) as [d|]; [|discriminate].
    destruct (pick m names) as [ds'|]; [|discriminate].
    intros [= <-]. cbn. rewrite (IH ds' eq_refl). reflexivity.
Qed.

Lemma pick_missing (m : gmap string CubeDescriptor) names n :
  In n names -> m !! n = None -> pick m names = None.
Proof.
  intros Hin Hn. induction names as [ | x names IH ]; [destruct Hin|].
  cbn. destruct Hin as [->|Hin].
  - rewrite Hn. reflexivity.
  - rewrite (IH Hin). destruct (m !! x); reflexivity.
Qed.

(** With an authorizer, [list_cubes] answers each approved name with the
    descriptor declared last under that name: where several providers
    declare a cube of the same name, the earlier declarations do not show,
    although the unfiltered listing has them all. *)
Theorem list_cubes_last_declaration_wins (w w' : Workspace)
  (auth : Authorizer) (identity : pyval) (ds : list CubeDescriptor)
  (t : list event) :
  authorizer w = Some auth ->
  list_cubes identity w = (inr ds, w', t) ->
  let all_cubes := ns_list_cubes (namespace w) in
  w' = w
  /\ map Some ds
     = map (fun n => List.find (fun d => String.eqb (desc_name d) n)
                       (rev all_cubes))
           (auth identity (map desc_name all_cubes)).
Proof.
  intros Hauth Hrun all_cubes. revert Hrun. unfold list_cubes. run.
  rewrite Hauth. run. fold all_cubes.
  destruct (pick (by_name all_cubes) (auth identity (map desc_name all_cubes)))
    as [ds'|] eqn:Hp; [|discriminate].
  intros [= <- <- _]. split; [reflexivity|].
  rewrite (pick_lookups _ _ _ Hp).
  apply map_ext. intros n. apply by_name_last.
Qed.

(** When the authorizer returns a name that no provider declares,
    [list_cubes] raises [KeyError]; the workspace is unchanged. *)
Theorem list_cubes_undeclared_name (w : Workspace) (auth : Authorizer)
  (identity : pyval) (n : string) :
  authorizer w = Some auth ->
  let names := map desc_name (ns_list_cubes (namespace w)) in
  In n (auth identity names) ->
  ~ In n names ->
  list_cubes identity w
  = (inl KeyError, w, [EvListCubes; EvAuthorize identity names]).
Proof.
  intros Hauth names Hin Hnot. unfold list_cubes. run. rewrite Hauth. run.
  fold names. rewrite (pick_missing _ _ n Hin); [reflexivity|].
  destruct (by_name (ns_list_cubes (namespace w)) !! n) as [d|] eqn:Hd;
    [|reflexivity].
  exfalso. apply Hnot. unfold by_name in Hd.
  destruct (by_name_acc_lookup _ _ _ _ Hd) as [[Hdin <-]|He];
    [|rewrite lookup_empty in He; discriminate].
  apply in_map. exact Hdin.
Qed.

Lemma list_cubes_last_declaration_wins_witness :
  let w := DemoDup.twice (Some Demo.only_alice) in
  let all_cubes := ns_list_cubes (namespace w) in
  all_cubes = [descriptor Demo.sales_decl; descriptor DemoDup.revenue_decl]
  /\ exists ds,
       result_of (list_cubes (PStr "alice") w) = inr ds
       /\ state_of (list_cubes (PStr "alice") w) = w
       /\ map Some ds
          = map (fun n => List.find (fun d => String.eqb (desc_name d) n)
                            (rev all_cubes))
                (Demo.only_alice (PStr "alice") (map desc_name all_cubes)).
Proof.
  intros w all_cubes. split; [reflexivity|].
  destruct (list_cubes (PStr "alice") w) as [[[e|ds] w'] t] eqn:Ho;
    [vm_compute in Ho; discriminate|].
  exists ds. split; [reflexivity|].
  exact (list_cubes_last_declaration_wins w w' Demo.only_alice (PStr "alice")
           ds t eq_refl Ho).
Defined.

(** On the workspace above the filtered listing shows the later declaration
    twice and the earlier one not at all. *)
Example list_cubes_shadowed_declaration :
  let w := DemoDup.twice (Some Demo.only_alice) in
  result_of (list_cubes (PStr "alice") w)
  = inr [descriptor DemoDup.revenue_decl; descriptor DemoDup.revenue_decl].
Proof. vm_compute. reflexivity. Qed.

Lemma list_cubes_undeclared_name_witness :
  let w := Demo.populated (Some DemoDup.ghost) in
  list_cubes PNone w
  = (inl KeyError, w,
     [EvListCubes;
      EvAuthorize PNone (map desc_name (ns_list_cubes (namespace w)))]).
Proof.
  intros w.
  apply (list_cubes_undeclared_name w DemoDup.ghost PNone "ghost").
  - reflexivity.
  - left. reflexivity.
  - cbn. intros [H|[]]. discriminate.
Defined.

(** ** The browser factory, continued *)

(** What a successful [browser()] has done after the cube was resolved. *)
Lemma browser_for_success X c locale w b w' t :
  browser_for X c locale w = (inr b, w', t) ->
  exists store w1 ts type_ store_info store_type cls naming_name,
    store_field_is_name (cube_store c) = true
    /\ get_store X (Some (cube_store_name c)) w = (inr store, w1, ts)
    /\ store_infos w1 !! cube_store_name c = Some (type_, store_info)
    /\ extension_name store = Some store_type
    /\ str_truthy (browser_name_for c store store_type) = true
    /\ browser_extension X (browser_name_for c store store_type) = Some cls
    /\ naming_name_for w1 c store_info = CStr naming_name
    /\ bc_distill_settings cls (browser_options_for w1 c store_info)
       = inr (br_settings b)
    /\ b = {| br_oid := next_oid w1;
              br_class := browser_name_for c store store_type;
              br_cube := c; br_store := store;
              br_locale := opt_or locale (cube_locale c);
              br_calendar := calendar w1;
              br_naming := distill_naming X <$> (namings w1 !! naming_name);
              br_settings := br_settings b |}
    /\ w' = set_next_oid (S (next_oid w1)) w1.
Proof.
  unfold browser_for. fold (cube_store_name c).
  destruct (store_field_is_name (cube_store c)) eqn:Hname; [|discriminate].
  cbn [negb]. intros H.
  apply bind_inr in H as (store & w1 & ts & t2 & Hgs & H & _).
  revert H. run.
  destruct (store_infos w1 !! cube_store_name c) as [[type_ store_info]|]
    eqn:Hinfo; [|discriminate].
  destruct (extension_name store) as [store_type|] eqn:Hext; [|discriminate].
  fold (browser_name_for c store store_type).
  destruct (str_truthy (browser_name_for c store store_type)) eqn:Hbn;
    [|discriminate].
  cbn [negb].
  destruct (browser_extension X (browser_name_for c store store_type))
    as [cls|] eqn:Hcls; [|discriminate].
  fold (naming_name_for w1 c store_info).
  fold (browser_options_for w1 c store_info).
  destruct (naming_name_for w1 c store_info) as [naming_name|m] eqn:Hnn;
    [|discriminate].
  destruct (bc_distill_settings cls (browser_options_for w1 c store_info))
    as [e|settings] eqn:Hds; [discriminate|].
  cbn. intros [= <- <- _].
  exists store, w1, ts, type_, store_info, store_type, cls, naming_name.
  cbn. repeat split; assumption.
Qed.

(** Conversely, these facts make [browser()] succeed. *)
Lemma browser_for_build X c locale w store w1 ts type_ store_info
  store_type cls naming_name settings :
  store_field_is_name (cube_store c) = true ->
  get_store X (Some (cube_store_name c)) w = (inr store, w1, ts) ->
  store_infos w1 !! cube_store_name c = Some (type_, store_info) ->
  extension_name store = Some store_type ->
  str_truthy (browser_name_for c store store_type) = true ->
  browser_extension X (browser_name_for c store store_type) = Some cls ->
  naming_name_for w1 c store_info = CStr naming_name ->
  bc_distill_settings cls (browser_options_for w1 c store_info)
  = inr settings ->
  browser_for X c locale w
  = (inr {| br_oid := next_oid w1;
            br_class := browser_name_for c store store_type;
            br_cube := c; br_store := store;
            br_locale := opt_or locale (cube_locale c);
            br_calendar := calendar w1;
            br_naming := distill_naming X <$> (namings w1 !! naming_name);
            br_settings := settings |},
     set_next_oid (S (next_oid w1)) w1,
     ts ++ [EvBrowserExtension (browser_name_for c store store_type);
            EvCreateBrowser (browser_name_for c store store_type)
              (cube_oid c) (opt_or locale (cube_locale c))]).
Proof.
  intros Hname Hgs Hinfo Hext Hbn Hcls Hnn Hds.
  unfold browser_for. fold (cube_store_name c). rewrite Hname. cbn [negb].
  rewrite (bind_run _ _ _ _ _ _ Hgs). run. rewrite Hinfo, Hext.
  fold (browser_name_for c store store_type). rewrite Hbn. cbn [negb].
  rewrite Hcls.
  fold (naming_name_for w1 c store_info).
  fold (browser_options_for w1 c store_info).
  rewrite Hnn, Hds. reflexivity.
Qed.

Lemma cube_store_name_truthy c :
  str_or (Some (cube_store_name c)) "default" = cube_store_name c.
Proof.
  unfold cube_store_name. destruct (cube_store c) as [ | s | s ];
    try reflexivity.
  destruct (str_truthy s) eqn:Hs; [|reflexivity]. cbn. rewrite Hs.
  reflexivity.
Qed.

Lemma get_store_result_cached X name w s w1 t :
  get_store X name w = (inr s, w1, t) ->
  stores w1 !! str_or name "default" = Some s.
Proof.
  intros Hrun.
  destruct (get_store_run_cases X name w) as [[Hsame Hres]|Hnew];
    rewrite Hrun in *; cbn [state_of result_of fst snd] in *.
  - subst w1. apply Hres. reflexivity.
  - destruct Hnew as (s0 & ty0 & _ & _ & [= <-] & _ & ->).
    apply lookup_insert_eq.
Qed.

Lemma cube_returns_cached r identity locale w c w1 t :
  cube (PStr r) identity locale w = (inr c, w1, t) ->
  _cubes w1 !! (r, identity, locale) = Some c
  /\ admitted w1 r identity = true.
Proof.
  intros Hrun.
  destruct (admitted w r identity) eqn:Hadm;
    [|rewrite (cube_denied _ _ _ _ Hadm) in Hrun; discriminate].
  pose proof (cube_touches_cache_only r identity locale w)
    as (_ & _ & _ & Hauth & _).
  rewrite Hrun in Hauth. cbn in Hauth.
  split; [|unfold admitted in *; rewrite Hauth; exact Hadm].
  rewrite (cube_admitted _ _ _ _ Hadm) in Hrun. cbn zeta in Hrun.
  destruct (_cubes w !! (r, identity, locale)) as [c0|] eqn:Hc.
  - rewrite (lookup_or_resolve_hit _ _ _ _ _ Hc) in Hrun.
    cbn in Hrun. injection Hrun as <- <- _. exact Hc.
  - rewrite (lookup_or_resolve_miss _ _ _ _ Hc) in Hrun.
    destruct (resolve_cube r locale w) as [[[e|c'] w'] t']; cbn in Hrun;
      [discriminate|].
    injection Hrun as <- <- _. cbn. apply lookup_insert_eq.
Qed.

Lemma browser_for_keeps X c locale {B} (f : Workspace -> B) :
  (forall v w, f (set_stores v w) = f w) ->
  (forall n w, f (set_next_oid n w) = f w) ->
  keeps f (browser_for X c locale).
Proof.
  intros Hs Hn. unfold browser_for.
  repeat first [ apply (get_store_keeps X _ f Hs Hn)
               | apply alloc_keeps; exact Hn
               | keeps_step ].
Qed.

(** Browsers are not cached: a second [browser()] call with the same
    arguments builds a new browser, of the same class and with the same
    settings and locale, on the very store instance and the very cube of
    the first, and constructs no store. *)
Theorem browser_builds_anew (X : Extensions) (c : cube_arg)
  (locale : option string) (identity : pyval) (w w1 : Workspace)
  (b1 : Browser) (t1 : list event) :
  browser X c locale identity w = (inr b1, w1, t1) ->
  exists b2 w2 t2,
    browser X c locale identity w1 = (inr b2, w2, t2)
    /\ br_oid b2 <> br_oid b1
    /\ br_store b2 = br_store b1
    /\ br_cube b2 = br_cube b1
    /\ br_class b2 = br_class b1
    /\ br_settings b2 = br_settings b1
    /\ br_locale b2 = br_locale b1
    /\ Forall (fun e => forall n ty, e <> EvCreateStore n ty) t2.
Proof.
  intros Hrun. unfold browser in *.
  apply bind_inr in Hrun as (co & wa & ta & tb & Hcube & Hrun & _).
  destruct (browser_for_success X co locale wa b1 w1 tb Hrun)
    as (store & wb & ts & type_ & store_info & store_type & cls & nn
        & Hname & Hgs & Hinfo & Hext & Hbn & Hcls & Hnn & Hds & Hb1 & Hw1).
  assert (Hcube1 : exists tc,
    match c with
    | ByRef ref => cube (PStr ref) identity None
    | ByObj c => ret c
    end w1 = (inr co, w1, tc)
    /\ Forall (fun e => forall n ty, e <> EvCreateStore n ty) tc).
  { destruct c as [r|c0].
    - destruct (cube_returns_cached _ _ _ _ _ _ _ Hcube) as [Hc Hadm].
      eexists. split.
      + apply (cube_hit_elsewhere r identity None wa w1 co);
          try assumption.
        * pose proof (browser_for_keeps X co locale _cubes
                        (fun _ _ => eq_refl) (fun _ _ => eq_refl) wa) as H.
          rewrite Hrun in H. exact H.
        * pose proof (browser_for_keeps X co locale authorizer
                        (fun _ _ => eq_refl) (fun _ _ => eq_refl) wa) as H.
          rewrite Hrun in H. exact H.
      + unfold auth_trace. destruct (authorizer wa);
          repeat constructor; discriminate.
    - revert Hcube. run. intros [= <- _ _]. eexists.
      split; [reflexivity | constructor]. }
  destruct Hcube1 as (tc & Hcube1 & Htc).
  assert (Hcached : stores wb !! cube_store_name co = Some store).
  { rewrite <- (cube_store_name_truthy co).
    exact (get_store_result_cached X _ _ _ _ _ Hgs). }
  assert (Hgs1 : get_store X (Some (cube_store_name co)) w1
                 = (inr store, w1, [])).
  { apply get_store_cached. rewrite cube_store_name_truthy.
    subst w1. exact Hcached. }
  assert (Hinfo1 : store_infos w1 !! cube_store_name co
                   = Some (type_, store_info)) by (subst w1; exact Hinfo).
  assert (Hnn1 : naming_name_for w1 co store_info = CStr nn)
    by (subst w1; exact Hnn).
  assert (Hds1 : bc_distill_settings cls
                   (browser_options_for w1 co store_info)
                 = inr (br_settings b1)) by (subst w1; exact Hds).
  do 3 eexists.
  rewrite (bind_run _ (fun c => browser_for X c locale) w1 co w1 tc Hcube1).
  rewrite (browser_for_build X co locale w1 store w1 [] type_ store_info
             store_type cls nn (br_settings b1)
             Hname Hgs1 Hinfo1 Hext Hbn Hcls Hnn1 Hds1).
  cbn [fst snd app]. split; [reflexivity|].
  rewrite Hb1. cbn. subst w1. cbn.
  split; [lia|]. repeat (split; [reflexivity|]).
  apply Forall_app. split; [exact Htc|].
  repeat constructor; discriminate.
Qed.

Lemma browser_builds_anew_witness :
  let w := Demo.populated None in
  let o := browser Demo.ext (ByRef "sales") (Some "fr") PNone w in
  exists b1 b2 w2 t2,
    result_of o = inr b1
    /\ browser Demo.ext (ByRef "sales") (Some "fr") PNone (state_of o)
       = (inr b2, w2, t2)
    /\ br_oid b2 <> br_oid b1
    /\ br_store b2 = br_store b1
    /\ br_cube b2 = br_cube b1
    /\ br_class b2 = br_class b1
    /\ br_settings b2 = br_settings b1
    /\ br_locale b2 = br_locale b1
    /\ Forall (fun e => forall n ty, e <> EvCreateStore n ty) t2.
Proof.
  intros w o.
  destruct o as [[[e|b1] w1] t1] eqn:Ho; [vm_compute in Ho; discriminate|].
  destruct (browser_builds_anew Demo.ext (ByRef "sales") (Some "fr") PNone
              w w1 b1 t1 Ho) as (b2 & w2 & t2 & H).
  exists b1, b2, w2, t2. split; [reflexivity | exact H].
Defined.

Lemma browser_options_for_lookup w c store_info k :
  browser_options_for w c store_info !! k
  = if decide (k = "naming") then None
    else if decide (k = "url") then None
    else match cube_browser_options c !! k with
         | Some v => Some (CStr v)
         | None =>
             match browser_options w !! k with
             | Some v => Some (CStr v)
             | None => store_info !! k
             end
         end.
Proof.
  unfold browser_options_for, _browser_options.
  destruct (decide (k = "naming")) as [->|Hn];
    [apply lookup_delete_eq|].
  rewrite lookup_delete_ne by congruence.
  destruct (decide (k = "url")) as [->|Hu]; [apply lookup_delete_eq|].
  rewrite lookup_delete_ne by congruence.
  rewrite lookup_union, lookup_fmap, lookup_union.
  destruct (cube_browser_options c !! k) as [v|];
    destruct (browser_options w !! k) as [v'|];
    destruct (store_info !! k) as [v''|]; reflexivity.
Qed.

(** The settings of a browser come from three layers of options, and two
    keys never reach the browser class: a successful [browser()] opened
    the store the cube names (["default"] when it names none), and gave the
    browser class, for every key but ["url"] and ["naming"], the cube's
    own browser option, or else the workspace's, or else the value
    registered for the store. *)
Theorem browser_settings_layers (X : Extensions) (c : Cube)
  (locale : option string) (identity : pyval) (w w' : Workspace)
  (b : Browser) (t : list event) :
  browser X (ByObj c) locale identity w = (inr b, w', t) ->
  exists cls type_ store_info options,
    stores w' !! cube_store_name c = Some (br_store b)
    /\ store_infos w !! cube_store_name c = Some (type_, store_info)
    /\ browser_extension X (br_class b) = Some cls
    /\ bc_distill_settings cls options = inr (br_settings b)
    /\ options !! "url" = None
    /\ options !! "naming" = None
    /\ (forall k, k <> "url" -> k <> "naming" ->
          options !! k
          = match cube_browser_options c !! k with
            | Some v => Some (CStr v)
            | None =>
                match browser_options w !! k with
                | Some v => Some (CStr v)
                | None => store_info !! k
                end
            end).
Proof.
  intros Hrun. unfold browser in Hrun.
  apply bind_inr in Hrun as (c' & wa & ta & tb & Hret & Hrun & _).
  injection Hret as <- <- _.
  destruct (browser_for_success X c locale w b w' tb Hrun)
    as (store & w1 & ts & type_ & store_info & store_type & cls & nn
        & Hname & Hgs & Hinfo & Hext & Hbn & Hcls & Hnn & Hds & Hb & Hw').
  pose proof (get_store_keeps X (Some (cube_store_name c)) store_infos
                (fun _ _ => eq_refl) (fun _ _ => eq_refl) w) as Hsi.
  pose proof (get_store_keeps X (Some (cube_store_name c)) browser_options
                (fun _ _ => eq_refl) (fun _ _ => eq_refl) w) as Hbo.
  rewrite Hgs in Hsi, Hbo. cbn in Hsi, Hbo.
  assert (Hstore : br_store b = store) by (rewrite Hb; reflexivity).
  assert (Hclass : br_class b = browser_name_for c store store_type)
    by (rewrite Hb; reflexivity).
  exists cls, type_, store_info, (browser_options_for w1 c store_info).
  split.
  { rewrite Hstore, Hw'. cbn. rewrite <- (cube_store_name_truthy c).
    exact (get_store_result_cached X _ _ _ _ _ Hgs). }
  split; [rewrite <- Hsi; exact Hinfo|].
  split; [rewrite Hclass; exact Hcls|].
  split; [exact Hds|].
  split; [rewrite browser_options_for_lookup; reflexivity|].
  split; [rewrite browser_options_for_lookup; reflexivity|].
  intros k Hu Hn. rewrite browser_options_for_lookup.
  destruct (decide (k = "naming")); [contradiction|].
  destruct (decide (k = "url")); [contradiction|].
  rewrite Hbo. reflexivity.
Qed.

Lemma browser_settings_layers_witness :
  let w := DemoBrowser.workspace in
  let c := DemoBrowser.sales in
  let o := browser Demo.ext (ByObj c) None PNone w in
  exists b cls type_ store_info options,
    result_of o = inr b
    /\ stores (state_of o) !! cube_store_name c = Some (br_store b)
    /\ store_infos w !! cube_store_name c = Some (type_, store_info)
    /\ browser_extension Demo.ext (br_class b) = Some cls
    /\ bc_distill_settings cls options = inr (br_settings b)
    /\ options !! "url" = None
    /\ options !! "naming" = None
    /\ (forall k, k <> "url" -> k <> "naming" ->
          options !! k
          = match cube_browser_options c !! k with
            | Some v => Some (CStr v)
            | None =>
                match browser_options w !! k with
                | Some v => Some (CStr v)
                | None => store_info !! k
                end
            end).
Proof.
  intros w c o.
  destruct o as [[[e|b] w'] t] eqn:Ho; [vm_compute in Ho; discriminate|].
  destruct (browser_settings_layers Demo.ext c None PNone w w' b t Ho)
    as (cls & type_ & store_info & options & H).
  exists b, cls, type_, store_info, options.
  split; [reflexivity | exact H].
Defined.

(** On that workspace the cube's schema overrides the store's, and the
    store's URL does not reach the browser. *)
Example browser_settings_of_demo :
  let o := browser Demo.ext (ByObj DemoBrowser.sales) None PNone
             DemoBrowser.workspace in
  match result_of o with
  | inr b => br_settings b = {[ "schema" := CStr "reporting" ]}
             /\ br_locale b = Some "en"
  | inl _ => False
  end.
Proof. vm_compute. split; reflexivity. Qed.

(** ** Features of a cube *)

(** [cube_features(cube, identity)] does not pass the identity on as an
    identity: the cube is resolved, and the authorizer asked, for the
    identity [None], under the cache key of [None]; so a reference that is
    not open to [None] is refused whoever asks.  The identity that was
    passed ends up as the locale of the browser that is built. *)
Theorem cube_features_identity_is_locale (X : Extensions)
  {Features : Type} (features : Browser -> Features) (r : string)
  (identity : option string) (w : Workspace) :
  (admitted w r PNone = false ->
   cube_features X features (ByRef r) identity w
   = (inl NotAuthorized, w, auth_trace w r PNone))
  /\ (forall f w' t,
        cube_features X features (ByRef r) identity w = (inr f, w', t) ->
        exists b,
          f = features b
          /\ _cubes w' !! (r, PNone, None) = Some (br_cube b)
          /\ br_locale b = opt_or identity (cube_locale (br_cube b))).
Proof.
  split.
  - intros Hden. unfold cube_features, browser.
    apply bind_fail. apply bind_fail. apply (cube_denied _ _ _ _ Hden).
  - intros f w' t Hrun. unfold cube_features in Hrun.
    apply bind_inr in Hrun as (b & wb & tb & t2 & Hb & Hret & _).
    revert Hret. run. intros [= <- <- _].
    exists b. split; [reflexivity|].
    unfold browser in Hb.
    apply bind_inr in Hb as (c & wa & ta & tc & Hcube & Hfor & _).
    destruct (cube_returns_cached _ _ _ _ _ _ _ Hcube) as [Hc _].
    destruct (browser_for_returns X c identity wa b wb tc Hfor)
      as [Hbc Hbl].
    pose proof (browser_for_keeps X c identity _cubes
                  (fun _ _ => eq_refl) (fun _ _ => eq_refl) wa) as Hk.
    rewrite Hfor in Hk. cbn in Hk.
    rewrite Hbc, Hk. split; [exact Hc | exact Hbl].
Qed.

(** With an authorizer that grants ["alice"] everything and nobody else
    anything, the features of a cube are refused to ["alice"]. *)
Example cube_features_refuses_alice :
  let w := Demo.populated (Some Demo.only_alice) in
  result_of (cube (PStr "sales") (PStr "alice") None w)
  <> inl NotAuthorized
  /\ result_of (cube_features Demo.ext br_class (ByRef "sales")
                  (Some "alice") w)
     = inl NotAuthorized.
Proof. split; [vm_compute; discriminate | reflexivity]. Qed.

(** ** Slicers *)

Lemma model_provider_named X pname md pc w :
  provider_extension X pname = Some pc ->
  model_provider X (PaName pname) md w
  = (inr (Some (new_provider X pname md)), w, [EvProviderExtension pname]).
Proof.
  intros Hpc. unfold model_provider, make_provider, new_provider. run.
  rewrite Hpc. reflexivity.
Qed.

Lemma bind_store_named X p0 store s ws ts w :
  str_truthy store = true ->
  get_store X (Some store) w = (inr s, ws, ts) ->
  bind_store X (Some p0) (Some store) w
  = (inr (Some (provider_bind X p0 s)), ws, ts ++ [EvBind (store_oid s)]).
Proof.
  intros Hstore Hgs. unfold bind_store. cbn [opt_truthy]. rewrite Hstore.
  cbn [orb]. rewrite (bind_run _ _ _ _ _ _ Hgs). reflexivity.
Qed.

Lemma target_by_store store w :
  target_namespace NaNone (Some store) w
  = (inr (store_namespace store),
     set_namespace (ns_alter id (store_namespace store) (namespace w)) w,
     []).
Proof.
  unfold target_namespace, store_namespace, namespace_create.
  cbn [from_option]. rewrite (String.eqb_sym "default" store).
  destruct (String.eqb store "default"); [destruct w|]; reflexivity.
Qed.

Lemma register_provider_run r p w n :
  ns_get r (namespace w) = Some n ->
  register_provider r p w
  = (inr tt, set_namespace (ns_alter (add_provider p) r (namespace w)) w, []).
Proof. intros H. unfold register_provider. run. rewrite H. reflexivity. Qed.

(** An import by provider name for a named store that opens: the provider
    is made, bound to the store, and appended to the providers of the
    store's namespace. *)
Lemma import_model_run X md pname pc store s ws ts w :
  provider_extension X pname = Some pc ->
  str_truthy store = true ->
  get_store X (Some store) w = (inr s, ws, ts) ->
  exists t,
    import_model X (MaDict md) (PaName pname) (Some store) NaNone w
    = (inr tt,
       set_namespace
         (ns_alter (add_provider (provider_bind X (new_provider X pname md) s))
            (store_namespace store)
            (ns_alter id (store_namespace store) (namespace ws))) ws,
       t).
Proof.
  intros Hpc Hstore Hgs. unfold import_model.
  assert (Hor : opt_or (Some store) (md_store md) = Some store)
    by (unfold opt_or; cbn [opt_truthy]; rewrite Hstore; reflexivity).
  rewrite (bind_run _ _ w md w [] eq_refl). cbn [fst snd].
  rewrite (bind_run _ _ _ _ _ _ (model_provider_named X pname md pc w Hpc)).
  cbn [fst snd]. rewrite Hor.
  rewrite (bind_run _ _ _ _ _ _
             (bind_store_named X _ store s ws ts w Hstore Hgs)).
  cbn [fst snd].
  rewrite (bind_run _ _ _ _ _ _ (target_by_store store ws)).
  cbn [fst snd].
  erewrite register_provider_run by apply (ns_get_alter id).
  cbn [fst snd]. eexists. reflexivity.
Qed.

(** [register_store] for a configuration that brings no model, provider or
    namespace of its own: the pair is recorded, and the store class's
    related provider, when it names one, is imported with an empty model. *)
Lemma register_store_plain X name type_ include_model config cls w :
  store_infos w !! name = None ->
  store_extension X type_ = Some cls ->
  config !! "model" = None ->
  config !! "model_provider" = None ->
  config !! "namespace" = None ->
  let w3 :=
    set_store_infos (<[name := (type_, config)]> (store_infos w)) w in
  register_store X name type_ include_model config w
  = match related_providers cls with
    | pname :: _ =>
        let o := import_model X (MaDict empty_metadata) (PaName pname)
                   (Some name) NaNone w3 in
        (o.1.1, o.1.2, EvStoreExtension type_ :: o.2)
    | [] => (inr tt, w3, [EvStoreExtension type_])
    end.
Proof.
  intros Hfree Hext Hm Hp Hn w3.
  unfold register_store, record_store, store_concrete_extension,
    import_store_model, related_providers.
  run. rewrite Hfree. cbn [fst snd app]. rewrite Hext.
  assert (Hdm : (if include_model then delete "model" config else config)
                = config)
    by (destruct include_model; [apply delete_id; exact Hm | reflexivity]).
  assert (Hmodel : (if include_model then config !! "model" else None) = None)
    by (destruct include_model; [exact Hm | reflexivity]).
  rewrite Hdm, Hmodel, Hp.
  rewrite (delete_id config "model_provider" Hp), Hn.
  rewrite (delete_id config "namespace" Hn).
  replace (set_store_infos _ (set_store_infos _ (set_store_infos _ w)))
    with w3 by (subst w3; destruct w; cbn; rewrite !insert_insert_eq;
                reflexivity).
  cbn [from_option].
  destruct (sc_related_model_provider cls) as [pname|];
    cbn [provider_arg_truthy]; [|reflexivity].
  destruct (str_truthy pname); [|reflexivity].
  destruct (import_model X (MaDict empty_metadata) (PaName pname)
              (Some name) NaNone w3) as [[r w4] t4].
  reflexivity.
Qed.

Lemma ns_providers_after_add (p : Provider) (r : ns_ref) (t : Namespace) :
  ns_providers <$> ns_get r (ns_alter (add_provider p) r (ns_alter id r t))
  = Some (ns_providers (default empty_namespace (ns_get r t)) ++ [p]).
Proof. rewrite !ns_get_alter. reflexivity. Qed.

Lemma ns_default_after_add (p : Provider) (r : ns_ref) (t : Namespace) :
  default empty_namespace
    (ns_get r (ns_alter (add_provider p) r (ns_alter id r t)))
  = add_provider p (default empty_namespace (ns_get r t)).
Proof. rewrite !ns_get_alter. reflexivity. Qed.

(** [add_slicer] on a fresh name registers the slicer store, opens it, and
    imports an empty model for the ["slicer"] provider into the store's
    namespace -- after [register_store] has already imported one for the
    provider the slicer store class names as its related model provider.
    So the namespace gains one provider for a store class without a related
    provider, and two (both bound to the same live store) for one with. *)
Theorem add_slicer_registers_providers (X : Extensions) (name url : string)
  (options : gmap string cval) (cls : StoreClass) (w : Workspace) :
  stores_match w ->
  store_infos w !! name = None ->
  str_truthy name = true ->
  options !! "type_" = None ->
  options !! "include_model" = None ->
  options !! "model" = None ->
  options !! "model_provider" = None ->
  options !! "namespace" = None ->
  store_extension X "slicer" = Some cls ->
  sc_accepts cls (<["url" := CStr url]> options) = true ->
  (forall pn, In pn (related_providers cls ++ ["slicer"]) ->
              is_Some (provider_extension X pn)) ->
  exists s w' t,
    add_slicer X name url options w = (inr tt, w', t)
    /\ store_infos w' !! name
       = Some ("slicer", <["url" := CStr url]> options)
    /\ stores w' !! name = Some s
    /\ ns_providers <$> ns_get (store_namespace name) (namespace w')
       = Some (ns_providers
                 (default empty_namespace
                    (ns_get (store_namespace name) (namespace w)))
               ++ map (fun pn =>
                         provider_bind X (new_provider X pn empty_metadata) s)
                      (related_providers cls ++ ["slicer"])).
Proof.
  intros Hw Hfree Hname Hty Him Hm Hp Hn Hext Hacc Hprov.
  set (config := <["url" := CStr url]> options).
  unfold add_slicer. rewrite Hty, Him. cbn [from_option].
  rewrite (delete_id options "include_model" Him). fold config.
  assert (Hcm : config !! "model" = None)
    by (subst config; rewrite lookup_insert_ne by discriminate; exact Hm).
  assert (Hcp : config !! "model_provider" = None)
    by (subst config; rewrite lookup_insert_ne by discriminate; exact Hp).
  assert (Hcn : config !! "namespace" = None)
    by (subst config; rewrite lookup_insert_ne by discriminate; exact Hn).
  pose proof (register_store_plain X name "slicer" true config cls w
                Hfree Hext Hcm Hcp Hcn) as Hreg. cbn zeta in Hreg.
  set (w3 := set_store_infos (<[name := ("slicer", config)]> (store_infos w)) w)
    in *.
  assert (Hopen : get_store X (Some name) w3
    = (inr {| store_oid := next_oid w3;
              extension_name := sc_extension_name cls;
              default_browser_name := sc_default_browser_name cls;
              store_options := config |},
       set_stores (<[name := {| store_oid := next_oid w3;
                                extension_name := sc_extension_name cls;
                                default_browser_name :=
                                  sc_default_browser_name cls;
                                store_options := config |}]> (stores w3))
         (set_next_oid (S (next_oid w3)) w3),
       [EvStoreExtension "slicer"; EvCreateStore name "slicer"])).
  { pose proof (get_store_opens X (Some name) w3 "slicer" config cls) as H.
    cbn zeta in H. rewrite (str_or_truthy name "default" Hname) in H.
    apply H; try assumption.
    - exact (unregistered_not_live w name Hw Hfree).
    - subst w3. cbn. apply lookup_insert_eq. }
  set (s := {| store_oid := next_oid w3;
               extension_name := sc_extension_name cls;
               default_browser_name := sc_default_browser_name cls;
               store_options := config |}) in *.
  set (ws := set_stores (<[name := s]> (stores w3))
               (set_next_oid (S (next_oid w3)) w3)) in *.
  destruct (Hprov "slicer") as [pcs Hpcs];
    [apply in_or_app; right; left; reflexivity|].
  exists s.
  unfold related_providers in *.
  destruct (sc_related_model_provider cls) as [pn|] eqn:Hrel;
    [destruct (str_truthy pn) eqn:Hpn|].
  - destruct (Hprov pn) as [pc Hpc]; [left; reflexivity|].
    destruct (import_model_run X empty_metadata pn pc name s ws _ w3
                Hpc Hname Hopen) as [t1 Hi1].
    rewrite Hi1 in Hreg. cbn [fst snd] in Hreg.
    rewrite (bind_run _ _ _ _ _ _ Hreg). cbn [fst snd].
    match type of Hi1 with
    | _ = (_, ?st, _) => set (w4 := st) in *
    end.
    assert (Hcached : get_store X (Some name) w4 = (inr s, w4, [])).
    { apply get_store_cached. rewrite (str_or_truthy name "default" Hname).
      subst w4 ws. cbn. apply lookup_insert_eq. }
    destruct (import_model_run X empty_metadata "slicer" pcs name s w4 _ w4
                Hpcs Hname Hcached) as [t2 Hi2].
    rewrite Hi2. cbn [fst snd]. do 2 eexists.
    split; [reflexivity|]. subst w4 ws w3. cbn.
    split; [apply lookup_insert_eq|]. split; [apply lookup_insert_eq|].
    rewrite ns_providers_after_add, ns_default_after_add. cbn.
    rewrite <- app_assoc. reflexivity.
  - rewrite (bind_run _ _ _ _ _ _ Hreg). cbn [fst snd].
    destruct (import_model_run X empty_metadata "slicer" pcs name s ws _ w3
                Hpcs Hname Hopen) as [t2 Hi2].
    rewrite Hi2. cbn [fst snd]. do 2 eexists.
    split; [reflexivity|]. subst ws w3. cbn.
    split; [apply lookup_insert_eq|]. split; [apply lookup_insert_eq|].
    rewrite ns_providers_after_add. reflexivity.
  - rewrite (bind_run _ _ _ _ _ _ Hreg). cbn [fst snd].
    destruct (import_model_run X empty_metadata "slicer" pcs name s ws _ w3
                Hpcs Hname Hopen) as [t2 Hi2].
    rewrite Hi2. cbn [fst snd]. do 2 eexists.
    split; [reflexivity|]. subst ws w3. cbn.
    split; [apply lookup_insert_eq|]. split; [apply lookup_insert_eq|].
    rewrite ns_providers_after_add. reflexivity.
Qed.

Lemma add_slicer_registers_providers_witness :
  let w := new_workspace None in
  exists s w' t,
    add_slicer DemoSlicer.ext "remote" "http://localhost:5000" ∅ w
    = (inr tt, w', t)
    /\ store_infos w' !! "remote"
       = Some ("slicer", <["url" := CStr "http://localhost:5000"]> ∅)
    /\ stores w' !! "remote" = Some s
    /\ ns_providers <$> ns_get (store_namespace "remote") (namespace w')
       = Some (ns_providers
                 (default empty_namespace
                    (ns_get (store_namespace "remote") (namespace w)))
               ++ map (fun pn =>
                         provider_bind DemoSlicer.ext
                           (new_provider DemoSlicer.ext pn empty_metadata) s)
                      (related_providers DemoSlicer.slicer_store
                         ++ ["slicer"])).
Proof.
  intros w.
  apply (add_slicer_registers_providers DemoSlicer.ext "remote"
           "http://localhost:5000" ∅ DemoSlicer.slicer_store w);
    try reflexivity.
  - intros n s H. cbn in H. rewrite lookup_empty in H. discriminate.
  - intros pn [<-|[<-|[]]]; eexists; reflexivity.
Defined.

(** On a new workspace, [add_slicer] with that store class leaves two
    providers in the slicer's namespace. *)
Example add_slicer_registers_twice :
  let w' := state_of (add_slicer DemoSlicer.ext "remote"
                        "http://localhost:5000" ∅ (new_workspace None)) in
  DemoImport.providers_at ["remote"] w' = Some 2.
Proof. vm_compute. reflexivity. Qed.

(** ** Store dictionaries and configuration sections *)

(** A store dictionary cannot carry a ["name"] or ["type_"] key: its keys
    are passed to [register_store] as keyword arguments beside the name
    and the type, so [_register_store_dict] raises [TypeError], and nothing
    is registered. *)
Theorem register_store_dict_keyword_clash (X : Extensions) (name : string)
  (info : gmap string cval) (w : Workspace) :
  is_Some (info !! "type") \/ is_Some (info !! "backend") ->
  is_Some (info !! "name") \/ is_Some (info !! "type_") ->
  _register_store_dict X name info w = (inl TypeError, w, []).
Proof.
  intros Hty Hclash. unfold _register_store_dict.
  destruct (info !! "type") as [ty|] eqn:Ht.
  - run. rewrite !lookup_delete_ne by discriminate.
    destruct Hclash as [[x Hx]|[x Hx]]; rewrite Hx;
      destruct ty; try destruct (info !! "name"); reflexivity.
  - destruct Hty as [[x Hx]|[ty Hb]]; [discriminate|]. rewrite Hb. run.
    rewrite !lookup_delete_ne by discriminate.
    destruct Hclash as [[x Hx]|[x Hx]]; rewrite Hx;
      destruct ty; try destruct (info !! "name"); reflexivity.
Qed.

Lemma register_store_dict_keyword_clash_witness :
  _register_store_dict Demo.ext "warehouse"
    {[ "type" := CStr "sql"; "name" := CStr "analytics" ]}
    (new_workspace None)
  = (inl TypeError, new_workspace None, []).
Proof.
  apply (register_store_dict_keyword_clash Demo.ext "warehouse"
           {[ "type" := CStr "sql"; "name" := CStr "analytics" ]}
           (new_workspace None)).
  - left. vm_compute. eauto.
  - left. vm_compute. eauto.
Defined.




Lemma str_or_is_truthy o d :
  str_truthy d = true -> str_truthy (str_or o d) = true.
Proof.
  intros Hd. destruct o as [s|]; cbn; [|exact Hd].
  destruct (str_truthy s) eqn:Hs; [exact Hs | exact Hd].
Qed.

(** [_store_for_model] always names a store: the model's own ["store"] when
    it has a non-empty one, else the ["store"] of its ["info"] dictionary
    when that is non-empty, else ["default"]; it never returns an empty
    name. *)
Theorem store_for_model_names_a_store (metadata : Metadata)
  (info : option (gmap string string)) :
  str_truthy (_store_for_model metadata info) = true
  /\ (forall s, md_store metadata = Some s -> str_truthy s = true ->
        _store_for_model metadata info = s)
  /\ (opt_truthy (md_store metadata) = false ->
      forall i s, info = Some i -> i !! "store" = Some s ->
                  str_truthy s = true ->
                  _store_for_model metadata info = s)
  /\ (opt_truthy (md_store metadata) = false ->
      opt_truthy (info ≫= (fun i => i !! "store")) = false ->
      _store_for_model metadata info = "default").
Proof.
  unfold _store_for_model. split; [apply str_or_is_truthy; reflexivity|].
  split.
  - intros s Hs Ht. rewrite Hs. cbn. rewrite Ht. cbn. rewrite Ht.
    reflexivity.
  - split.
    + intros Hf i s -> Hi Ht. rewrite Hf. cbn [negb]. rewrite Hi. cbn.
      rewrite Ht. reflexivity.
    + intros Hf Hinfo. rewrite Hf. cbn [negb].
      destruct info as [i|]; cbn in Hinfo.
      * destruct (i !! "store") as [s|]; [|reflexivity].
        cbn in *. rewrite Hinfo. reflexivity.
      * destruct (md_store metadata) as [s|]; [|reflexivity].
        cbn in *. rewrite Hf. reflexivity.
Qed.


(** ** Consistency of the lookup cache *)

Lemma cache_consistent_grows w w' :
  _cubes w' = _cubes w -> namespace w' = namespace w ->
  next_oid w <= next_oid w' ->
  cache_consistent w -> cache_consistent w'.
Proof.
  intros Hc Hn Ho Hw key c Hk. rewrite Hc in Hk.
  destruct (Hw key c Hk) as [Hlt Hrest]. split; [lia|].
  rewrite Hn. exact Hrest.
Qed.

Lemma get_store_keeps_consistent X name :
  preserves cache_consistent (get_store X name).
Proof.
  intros w Hw.
  destruct (get_store_run_cases X name w) as [[-> _]|Hnew]; [exact Hw|].
  destruct Hnew as (s & type_ & _ & _ & _ & _ & ->).
  apply (cache_consistent_grows w); try reflexivity; [cbn; lia | exact Hw].
Qed.

Lemma alloc_keeps_consistent : preserves cache_consistent alloc.
Proof.
  intros w Hw. apply (cache_consistent_grows w); try reflexivity;
    [cbn; lia | exact Hw].
Qed.

Lemma browser_for_keeps_consistent X c locale :
  preserves cache_consistent (browser_for X c locale).
Proof.
  unfold browser_for.
  repeat first [ apply get_store_keeps_consistent
               | apply alloc_keeps_consistent
               | preserves_step ].
Qed.

Lemma cube_keeps_consistent ref identity locale :
  preserves cache_consistent (cube ref identity locale).
Proof.
  intros w Hw. destruct ref as [ | z | r ]; try exact Hw.
  destruct (cube (PStr r) identity locale w) as [[[e|c] w1] t] eqn:Hrun.
  - pose proof (cube_run_cases r identity locale w) as [Hsame|Hst];
      rewrite Hrun in *; cbn in *.
    + subst w1. exact Hw.
    + destruct Hst as (c & n & _ & Hres & _). discriminate.
  - exact (proj1 (proj2 (proj2 (cube_success _ _ _ _ _ _ _ Hw Hrun)))).
Qed.

(** The lookup cache holds nothing stale -- every cached cube carries the
    stamps that resolving its reference in the present tree would give --
    when the workspace is made and after [flush_lookup_cache], and [cube],
    [get_store] and [browser] keep it so.  Only the methods that change the
    namespace tree can leave a stale cube behind, which is what the flush
    is for. *)
Theorem cache_consistent_invariant (X : Extensions) :
  (forall auth, cache_consistent (new_workspace auth))
  /\ (forall w, cache_consistent (state_of (flush_lookup_cache w)))
  /\ (forall ref identity locale,
        preserves cache_consistent (cube ref identity locale))
  /\ (forall name, preserves cache_consistent (get_store X name))
  /\ (forall c locale identity,
        preserves cache_consistent (browser X c locale identity)).
Proof.
  split; [apply new_workspace_consistent|].
  split; [apply flushed_consistent|].
  split; [intros; apply cube_keeps_consistent|].
  split; [intros; apply get_store_keeps_consistent|].
  intros c locale identity. unfold browser.
  apply preserves_bind; [|intros c'; apply browser_for_keeps_consistent].
  destruct c as [r|c0]; [apply cube_keeps_consistent|].
  apply preserves_still. reflexivity.
Qed.

(** An import can make a cached cube stale: on the demonstration workspace,
    after a second provider of ["sales"] is imported into a new namespace
    ["eu"], the reference ["eu.sales"] -- cached when it still resolved to
    the root's provider -- is no longer what a resolution would give. *)
Example import_can_leave_stale_cube :
  let w := state_of (cube (PStr "eu.sales") PNone None
                       (Demo.populated None)) in
  let w1 := state_of (import_model Demo.ext (MaDict DemoDup.second_model)
                        PaNone (Some "default") (NaName "eu") w) in
  (cube_label <$> _cubes w1 !! ("eu.sales", PNone, None))
  = Some (Some "Sales")
  /\ match result_of (cube (PStr "eu.sales") PNone None
                        (state_of (flush_lookup_cache w1))) with
     | inr c => cube_label c = Some "Revenue"
     | inl _ => False
     end.
Proof. split; vm_compute; reflexivity. Qed.
